(** * In-place matrix transposition: the four kernels of bench-transpose.cpp

    The development embeds [pad] and the loop nests of [BM_Transpose_Row],
    [BM_Transpose_Block], [BM_Transpose_Block2] and [transpose_rec] as
    state-passing commands over a bounds-checked buffer, and relates them to
    the transposition of the logical [N x N] matrix.

    Conventions of the embedding:
    - C++ [int] is modelled by [Z].  Signed overflow is undefined behaviour in
      the source, so the model only speaks about runs in which no [int]
      expression overflows.  Every theorem that promises a result carries the
      range in which that is so: [N2 * N <= 2147483647] for the subscripts
      [i*N2+j], [N + B <= 2147483647] for the loop bounds [k+B] and [x+B2],
      [N <= 2147483631] for the sum in [pad] (see [pad_fits_int]).  Division
      and remainder are the truncating [Z.quot] and [Z.rem] of C.
    - [vector<int>] is a [list Z]; [m[a]] outside [0, size) is undefined
      behaviour in the source and is reported here as [OutOfBounds].
    - every loop is the combinator [for_], which follows the shape
      [for (init; cond; next) body] of the source and carries a bound on its
      number of iterations; running into that bound is reported as
      [OutOfFuel], and the theorems show that neither fault happens. *)

From Stdlib Require Import ZArith Lia Bool Sorted.
From stdpp Require Import base list.
From Equations Require Import Equations.
Local Open Scope Z_scope.

(** ** Padding of the row stride *)

(** [#define PAD 47] *)
Definition PAD : Z := 47.

(** [N + (PAD ? (64+PAD-N%64)%64 : 0)], with the macro as a parameter.  The
    sum is the sum of [Z]: it is the value the [int] code computes as long as
    it does not exceed 2147483647, which for [PAD = 47] means
    [N <= 2147483631]. *)
Definition pad_with (PAD N : Z) : Z :=
  N + (if negb (PAD =? 0) then Z.rem (64 + PAD - Z.rem N 64) 64 else 0).

(** [int pad(int N)] *)
Definition pad (N : Z) : Z := pad_with PAD N.

(** ** The buffer and the commands that act on it *)

(** The state of a run: the buffer [m], and the list of the indices at which
    the buffer has been accessed so far, in program order. *)
Record machine := Machine { mem : list Z; log : list Z }.

Inductive outcome :=
| Done (s : machine)
| OutOfBounds
| OutOfFuel.

Definition cmd := machine -> outcome.

(** [m[a]] as a checked read. *)
Definition at_ (m : list Z) (a : Z) : option Z :=
  if a <? 0 then None else m !! Z.to_nat a.

(** [swap(m[a], m[b])]: both cells are read, then both are written. *)
Definition swap (a b : Z) : cmd := fun s =>
  match at_ (mem s) a, at_ (mem s) b with
  | Some x, Some y =>
      Done {| mem := <[Z.to_nat b := x]> (<[Z.to_nat a := y]> (mem s));
              log := log s ++ [a; b] |}
  | _, _ => OutOfBounds
  end.

Definition skip : cmd := Done.

Definition seq (c1 c2 : cmd) : cmd := fun s =>
  match c1 s with
  | Done s' => c2 s'
  | OutOfBounds => OutOfBounds
  | OutOfFuel => OutOfFuel
  end.

Declare Scope cmd_scope.
Delimit Scope cmd_scope with cmd.
Bind Scope cmd_scope with cmd.
Notation "c1 ;; c2" := (seq c1 c2)
  (at level 100, c2 at level 200, right associativity) : cmd_scope.
Local Open Scope cmd_scope.

(** [for (st = init; cond(st); st = next(st)) body(st)], at most [fuel]
    iterations. *)
Fixpoint for_ {St : Type} (fuel : nat) (st : St) (cond : St -> bool)
    (next : St -> St) (body : St -> cmd) : cmd :=
  if cond st then
    match fuel with
    | O => fun _ => OutOfFuel
    | S fuel' => body st ;; for_ fuel' (next st) cond next body
    end
  else skip.

(** ** The four kernels *)

(** The timed loop nest of [BM_Transpose_Row] (lines 31-35), as a function of
    the dimension [N] and the stride [N2].  The subscripts [i * N2 + j] are
    those of the [int] code while [N2 * N <= 2147483647]. *)
Definition Transpose_Row (N N2 : Z) : cmd :=
  for_ (Z.to_nat N) 0 (fun i => i <? N) (fun i => i + 1) (fun i =>
    for_ (Z.to_nat N) (i + 1) (fun j => j <? N) (fun j => j + 1) (fun j =>
      swap (i * N2 + j) (j * N2 + i))).

(** The timed loop nest of [BM_Transpose_Block] (lines 48-63), as a function
    of [N], the stride [N2] and the tile width [B].  The subscripts and the
    bounds [k + B], [l + B] are those of the [int] code while
    [N2 * N <= 2147483647] and [B <= 2147483647]. *)
Definition Transpose_Block (N N2 B : Z) : cmd :=
  for_ (Z.to_nat N) 0 (fun k => k <? N) (fun k => k + B) (fun k =>
    (* diagonal *)
    for_ (Z.to_nat N) k (fun i => (i <? k + B) && (i <? N)) (fun i => i + 1) (fun i =>
      for_ (Z.to_nat N) (k + 1) (fun j => (j <? k + B) && (j <? N)) (fun j => j + 1) (fun j =>
        swap (i * N2 + j) (j * N2 + i))) ;;
    (* off-diagonal *)
    for_ (Z.to_nat N) (k + B) (fun l => l <? N) (fun l => l + B) (fun l =>
      for_ (Z.to_nat N) k (fun i => (i <? k + B) && (i <? N)) (fun i => i + 1) (fun i =>
        for_ (Z.to_nat N) l (fun j => (j <? l + B) && (j <? N)) (fun j => j + 1) (fun j =>
          swap (i * N2 + j) (j * N2 + i))))).

(** The timed loop nest of [BM_Transpose_Block2] (lines 79-105), as a function
    of [N], the stride [N2] and the two tile widths [B] and [B2].  The
    subscripts and the bounds [x + B2], [y + B2], [k + B], [l + B] are those
    of the [int] code while [N2 * N], [N + B] and [N + B2] are at most
    2147483647. *)
Definition Transpose_Block2 (N N2 B B2 : Z) : cmd :=
  for_ (Z.to_nat N) 0 (fun x => x <? N) (fun x => x + B2) (fun x =>
    for_ (Z.to_nat N) x (fun k => (k <? x + B2) && (k <? N)) (fun k => k + B) (fun k =>
      for_ (Z.to_nat N) k (fun i => (i <? k + B) && (i <? N)) (fun i => i + 1) (fun i =>
        for_ (Z.to_nat N) (k + 1) (fun j => (j <? k + B) && (j <? N)) (fun j => j + 1) (fun j =>
          swap (i * N2 + j) (j * N2 + i))) ;;
      for_ (Z.to_nat N) (k + B) (fun l => (l <? x + B2) && (l <? N)) (fun l => l + B) (fun l =>
        for_ (Z.to_nat N) k (fun i => (i <? k + B) && (i <? N)) (fun i => i + 1) (fun i =>
          for_ (Z.to_nat N) l (fun j => (j <? l + B) && (j <? N)) (fun j => j + 1) (fun j =>
            swap (i * N2 + j) (j * N2 + i))))) ;;
    for_ (Z.to_nat N) (x + B2) (fun y => y <? N) (fun y => y + B2) (fun y =>
      for_ (Z.to_nat N) x (fun k => (k <? x + B2) && (k <? N)) (fun k => k + B) (fun k =>
        for_ (Z.to_nat N) y (fun l => (l <? y + B2) && (l <? N)) (fun l => l + B) (fun l =>
          for_ (Z.to_nat N) k (fun i => (i <? k + B) && (i <? N)) (fun i => i + 1) (fun i =>
            for_ (Z.to_nat N) l (fun j => (j <? l + B) && (j <? N)) (fun j => j + 1) (fun j =>
              swap (i * N2 + j) (j * N2 + i))))))).

(** [void transpose_rec(const int N, int n, vi &m, int i0, int j0, int i1,
    int j1)].  A call with [n > 4] recurses on [n / 2] and on [n - n / 2], both
    smaller than [n]: the recursion is well founded on [Z.to_nat n].  The
    subscripts [i * N + j] and the sums [i0 + n], [j0 + n], [i0 + h] are
    those of the [int] code while [N * N] and the corner sums are at most
    2147483647. *)
Equations? transpose_rec (N n i0 j0 i1 j1 : Z) : cmd by wf (Z.to_nat n) lt :=
  transpose_rec N n i0 j0 i1 j1 with Z_le_gt_dec n 4 => {
    | left _ =>
        if i0 =? j0 then
          for_ (Z.to_nat n) i0 (fun i => (i <? i0 + n) && (i <? N)) (fun i => i + 1) (fun i =>
            for_ (Z.to_nat n) (i + 1) (fun j => (j <? i0 + n) && (j <? N)) (fun j => j + 1) (fun j =>
              swap (i * N + j) (j * N + i)))
        else
          for_ (Z.to_nat n) (i0, j1)
               (fun '(i, jj) => (i <? i0 + n) && (i <? N) && (jj <? N))
               (fun '(i, jj) => (i + 1, jj + 1)) (fun '(i, jj) =>
            for_ (Z.to_nat n) (j0, i1)
                 (fun '(j, ii) => (j <? j0 + n) && (j <? N) && (ii <? N))
                 (fun '(j, ii) => (j + 1, ii + 1)) (fun '(j, ii) =>
              swap (i * N + j) (ii * N + jj)))
    | right _ =>
        let h := n ÷ 2 in
        transpose_rec N h i0 j0 i1 j1 ;;
        transpose_rec N (n - h) (i0 + h) (j0 + h) (i1 + h) (j1 + h) ;;
        transpose_rec N (n - h) (i0 + h) j0 i1 (j1 + h) }.
Proof.
  all: try subst h; pose proof (Z.quot_rem' n 2);
    pose proof (Z.rem_bound_pos n 2); lia.
Qed.

(** One timed iteration of each benchmark, with the constants of the source:
    the stride is [pad N] for the first three, [B = 64] for the block kernel,
    [B = 4] and [B2 = 1040] for the two-level kernel, and the recursive kernel
    runs on the unpadded layout from [transpose_rec(N, N, m, 0, 0, 0, 0)]. *)
Definition BM_Transpose_Row (N : Z) : cmd := Transpose_Row N (pad N).
Definition BM_Transpose_Block (N : Z) : cmd := Transpose_Block N (pad N) 64.
Definition BM_Transpose_Block2 (N : Z) : cmd := Transpose_Block2 N (pad N) 4 1040.
Definition BM_Transpose_Rec (N : Z) : cmd := transpose_rec N N 0 0 0 0.

(** Running a command on a buffer, from an empty access log. *)
Definition boot (m : list Z) : machine := {| mem := m; log := [] |}.

Definition run (c : cmd) (m : list Z) : option (list Z) :=
  match c (boot m) with
  | Done s => Some (mem s)
  | _ => None
  end.

(** The element at row [i], column [j] of a buffer with stride [N2]. *)
Definition elem (N2 : Z) (m : list Z) (i j : Z) : option Z := at_ m (i * N2 + j).

(** The buffer [0, 1, ..., n-1], whose cells are pairwise distinct. *)
Definition iota (n : nat) : list Z := map Z.of_nat (List.seq 0 n).

(** ** Traces of mirror swaps

    Every swap of the source exchanges a cell [(i, j)] with its mirror image
    [(j, i)].  A run is therefore described by the list of the pairs [(i, j)]
    it swaps, in order; the effect of such a list on the buffer only depends
    on how often each unordered pair occurs in it. *)

(** The command that performs the listed mirror swaps, one after the other. *)
Fixpoint mirror_swaps (N2 : Z) (l : list (Z * Z)) : cmd :=
  match l with
  | [] => skip
  | (i, j) :: l' => swap (i * N2 + j) (j * N2 + i) ;; mirror_swaps N2 l'
  end.

(** [c] performs exactly the mirror swaps of [l], whatever the state. *)
Definition traces (N2 : Z) (c : cmd) (l : list (Z * Z)) : Prop :=
  forall s, c s = mirror_swaps N2 l s.

(** [c] performs the mirror swaps of some list that satisfies [Q]. *)
Definition emits (N2 : Z) (c : cmd) (Q : list (Z * Z) -> Prop) : Prop :=
  exists l, traces N2 c l /\ Q l.

(** The buffer indices a list of mirror swaps accesses, in order. *)
Definition accesses (N2 : Z) (l : list (Z * Z)) : list Z :=
  flat_map (fun p => [p.1 * N2 + p.2; p.2 * N2 + p.1]) l.

(** Both coordinates of a swapped pair lie inside the logical matrix. *)
Definition in_range (N : Z) (p : Z * Z) : Prop :=
  0 <= p.1 < N /\ 0 <= p.2 < N.

(** The swap [p] exchanges the cells [(i, j)] and [(j, i)]. *)
Definition hits (i j : Z) (p : Z * Z) : bool :=
  ((p.1 =? i) && (p.2 =? j)) || ((p.1 =? j) && (p.2 =? i)).

(** The cells [(i, j)] and [(j, i)] are exchanged an odd number of times. *)
Fixpoint flips (l : list (Z * Z)) (i j : Z) : bool :=
  match l with
  | [] => false
  | p :: l' => xorb (hits i j p) (flips l' i j)
  end.

(** ** The properties of a run that the theorems speak about *)

(** The run completes, and every index it accesses is inside the buffer. *)
Definition safe (c : cmd) (m : list Z) : Prop :=
  exists s', c (boot m) = Done s' /\
    Forall (fun x => 0 <= x < Z.of_nat (length m)) (log s').

(** The run leaves the logical matrix transposed. *)
Definition transposes (N N2 : Z) (c : cmd) (m : list Z) : Prop :=
  exists m', run c m = Some m' /\ length m' = length m /\
    forall i j, 0 <= i < N -> 0 <= j < N ->
      is_Some (elem N2 m j i) /\ elem N2 m' i j = elem N2 m j i.

(** Running the command twice gives the buffer back. *)
Definition involutive (c : cmd) (m : list Z) : Prop :=
  exists m', run c m = Some m' /\ run c m' = Some m.

(** The run leaves every diagonal element as it was. *)
Definition diagonal_fixed (N N2 : Z) (c : cmd) (m : list Z) : Prop :=
  exists m', run c m = Some m' /\
    forall i, 0 <= i < N -> elem N2 m' i i = elem N2 m i i.

(** The run accesses cells of the logical matrix only; the padding columns
    [N <= c < N2] of every row are neither read nor written, and hold what
    they held. *)
Definition padding_untouched (N N2 : Z) (c : cmd) (m : list Z) : Prop :=
  exists s', c (boot m) = Done s' /\
    (forall x, In x (log s') ->
       exists i j, 0 <= i < N /\ 0 <= j < N /\ x = i * N2 + j) /\
    (forall r k, N <= k < N2 ->
       ~ In (r * N2 + k) (log s') /\ elem N2 (mem s') r k = elem N2 m r k).

(** What the trace of the row-by-row kernel looks like: only cells above the
    diagonal are named, [N (N - 1) / 2] swaps are made, and every unordered
    pair of distinct coordinates is exchanged an odd number of times. *)
Definition row_trace (N : Z) (l : list (Z * Z)) : Prop :=
  Forall (in_range N) l /\
  Forall (fun p => p.1 < p.2) l /\
  Z.of_nat (length l) * 2 = N * (N - 1) /\
  forall a b, 0 <= a < N -> 0 <= b < N -> a <> b -> flips l a b = true.

(** ** The benchmark harness around the kernels *)

(** [vi m(size, 1)]: a buffer of [size] cells, all ones.  It is the buffer of
    the source for [0 <= size <= 2147483647], where the product [N2 * N] that
    gives the size is the product the [int] code computes; the theorems use
    it in that range only. *)
Definition vi_ones (size : Z) : list Z := replicate (Z.to_nat size) 1.

(** [for (auto _ : state) c]: the benchmark library decides how many times
    the timed loop runs; the count is the parameter [iters]. *)
Fixpoint timed (iters : nat) (c : cmd) : cmd :=
  match iters with
  | O => skip
  | S iters' => c ;; timed iters' c
  end.

(** The bodies of the four benchmark functions for [state.range(0) = N]: the
    buffer is allocated and filled with ones, then the kernel is run [iters]
    times on it. *)
Definition BM_Transpose_Row_state (N : Z) (iters : nat) : outcome :=
  timed iters (BM_Transpose_Row N) (boot (vi_ones (pad N * N))).
Definition BM_Transpose_Block_state (N : Z) (iters : nat) : outcome :=
  timed iters (BM_Transpose_Block N) (boot (vi_ones (pad N * N))).
Definition BM_Transpose_Block2_state (N : Z) (iters : nat) : outcome :=
  timed iters (BM_Transpose_Block2 N) (boot (vi_ones (pad N * N))).
Definition BM_Transpose_Rec_state (N : Z) (iters : nat) : outcome :=
  timed iters (BM_Transpose_Rec N) (boot (vi_ones (N * N))).

(** The buffer a run ends with, when it ends without a fault. *)
Definition final_mem (o : outcome) : option (list Z) :=
  match o with
  | Done s => Some (mem s)
  | _ => None
  end.

(** ** The effect of mirror swaps on the buffer alone *)

(** What [swap] does to the buffer, without the access log. *)
Definition swap_mem (a b : Z) (m : list Z) : option (list Z) :=
  match at_ m a, at_ m b with
  | Some x, Some y => Some (<[Z.to_nat b := x]> (<[Z.to_nat a := y]> m))
  | _, _ => None
  end.

Fixpoint swaps_mem (N2 : Z) (l : list (Z * Z)) (m : list Z) : option (list Z) :=
  match l with
  | [] => Some m
  | (i, j) :: l' =>
      match swap_mem (i * N2 + j) (j * N2 + i) m with
      | Some m1 => swaps_mem N2 l' m1
      | None => None
      end
  end.

(** The run ends without a fault, and its buffer is a rearrangement of the
    buffer it started from. *)
Definition permutes (c : cmd) (m : list Z) : Prop :=
  exists m', run c m = Some m' /\ m' ≡ₚ m.

(** ** The sweep of benchmark arguments *)

(** [#define MAX 26000] and [#define START 1000] *)
Definition MAX : Z := 26000.
Definition START : Z := 1000.

(** The loop of [CustomArguments],
    [for (int i = START; i <= MAX; i = (i*12)/11) b->Args({i})], from the
    value [i] on: the arguments it registers, in order, or [None] when it has
    not finished within [fuel] iterations.  The product [i * 12] is the one
    the [int] code computes while [max <= 178956970]. *)
Fixpoint CustomArguments_loop (fuel : nat) (i max : Z) : option (list Z) :=
  if i <=? max then
    match fuel with
    | O => None
    | S fuel' => option_map (cons i) (CustomArguments_loop fuel' (i * 12 ÷ 11) max)
    end
  else Some [].

(** [static void CustomArguments(benchmark::internal::Benchmark* b)] *)
Definition CustomArguments : option (list Z) :=
  CustomArguments_loop (Z.to_nat MAX) START MAX.

(** ** Which pairs a kernel exchanges *)

(** The trace [l] stays inside the matrix and exchanges the cells [(a, b)]
    and [(b, a)], for [a < b], an odd number of times exactly when [f a b]. *)
Definition flips_as (N : Z) (f : Z -> Z -> bool) (l : list (Z * Z)) : Prop :=
  Forall (in_range N) l /\
  forall a b, 0 <= a -> a < b -> b < N -> flips l a b = f a b.

(** [f], given on pairs [a < b], as a predicate on arbitrary cells. *)
Definition swapped_by (f : Z -> Z -> bool) (i j : Z) : bool :=
  negb (i =? j) && f (Z.min i j) (Z.max i j).

(** The run ends without a fault and exchanges exactly the mirror pairs that
    [f] selects: the other cells of the logical matrix keep their value. *)
Definition rearranges (N N2 : Z) (f : Z -> Z -> bool) (c : cmd) (m : list Z) : Prop :=
  exists m', run c m = Some m' /\ length m' = length m /\
    forall i j, 0 <= i < N -> 0 <= j < N ->
      elem N2 m' i j = if swapped_by f i j then elem N2 m j i else elem N2 m i j.

(** The first index of the tile of width [B] that holds [x]. *)
Definition tile_start (B x : Z) : Z := x - x mod B.

(** For [a < b]: [b] lies in a later tile than [a], or [a] is the first index
    of its tile. *)
Definition tile_rule (B a b : Z) : bool :=
  (tile_start B a + B <=? b) || (a =? tile_start B a).

(** ** Arithmetic of the row-major layout *)

Ltac zbool :=
  repeat match goal with
  | |- context [?a =? ?b] => destruct (Z.eqb_spec a b)
  | |- context [?a <? ?b] => destruct (Z.ltb_spec a b)
  | |- context [?a <=? ?b] => destruct (Z.leb_spec a b)
  | H : context [?a =? ?b] |- _ => destruct (Z.eqb_spec a b)
  | H : context [?a <? ?b] |- _ => destruct (Z.ltb_spec a b)
  | H : context [?a <=? ?b] |- _ => destruct (Z.leb_spec a b)
  end.

Lemma idx_inj (N2 i j i' j' : Z) :
  0 <= j < N2 -> 0 <= j' < N2 ->
  i * N2 + j = i' * N2 + j' -> i = i' /\ j = j'.
Proof.
  intros Hj Hj' E.
  assert (i = i') as -> by nia.
  split; [reflexivity | lia].
Qed.

Lemma idx_bound (N N2 i j : Z) :
  N <= N2 -> 0 <= i < N -> 0 <= j < N -> 0 <= i * N2 + j < N2 * N.
Proof. intros. nia. Qed.

Lemma idx_eqb (N2 i j i' j' : Z) :
  0 <= j < N2 -> 0 <= j' < N2 ->
  (i * N2 + j =? i' * N2 + j') = (i =? i') && (j =? j').
Proof.
  intros Hj Hj'.
  destruct (Z.eqb_spec (i * N2 + j) (i' * N2 + j')) as [E | E].
  - apply idx_inj in E as [-> ->]; [| assumption ..].
    now rewrite !Z.eqb_refl.
  - destruct (Z.eqb_spec i i') as [-> |]; [| reflexivity].
    destruct (Z.eqb_spec j j') as [-> |]; [| reflexivity].
    contradiction.
Qed.

(** Every index of the buffer is a cell [r * N2 + c] with [0 <= c < N2]. *)
Lemma idx_split (N2 x : Z) :
  0 < N2 -> 0 <= x -> exists r c, 0 <= r /\ 0 <= c < N2 /\ x = r * N2 + c.
Proof.
  intros HN Hx. exists (x / N2), (x mod N2).
  pose proof (Z.div_mod x N2 ltac:(lia)).
  pose proof (Z.mod_pos_bound x N2 HN).
  pose proof (Z.div_pos x N2 Hx HN).
  repeat split; lia.
Qed.

(** ** Reads and writes of the buffer *)

Lemma at_is_Some (m : list Z) (a : Z) :
  0 <= a < Z.of_nat (length m) -> is_Some (at_ m a).
Proof.
  intros H. unfold at_. destruct (Z.ltb_spec a 0); [lia |].
  apply lookup_lt_is_Some. lia.
Qed.

Lemma at_Some_bound (m : list Z) (a x : Z) :
  at_ m a = Some x -> 0 <= a < Z.of_nat (length m).
Proof.
  unfold at_. destruct (Z.ltb_spec a 0) as [Hneg | Hpos]; [discriminate |].
  intros E. apply lookup_lt_Some in E. lia.
Qed.

Lemma at_insert (m : list Z) (a z v : Z) :
  0 <= a < Z.of_nat (length m) ->
  at_ (<[Z.to_nat a := v]> m) z = if z =? a then Some v else at_ m z.
Proof.
  intros H. unfold at_.
  destruct (Z.eqb_spec z a) as [-> | Hne].
  - destruct (Z.ltb_spec a 0); [lia |].
    apply list_lookup_insert_eq. lia.
  - destruct (Z.ltb_spec z 0); [reflexivity |].
    apply list_lookup_insert_ne. lia.
Qed.

(** The effect of one [swap] whose two indices are inside the buffer. *)
Lemma swap_sem (s : machine) (a b : Z) :
  0 <= a < Z.of_nat (length (mem s)) ->
  0 <= b < Z.of_nat (length (mem s)) ->
  exists m1,
    swap a b s = Done {| mem := m1; log := log s ++ [a; b] |} /\
    length m1 = length (mem s) /\
    forall z, at_ m1 z = at_ (mem s) (if z =? b then a else if z =? a then b else z).
Proof.
  intros Ha Hb. unfold swap.
  destruct (at_is_Some _ _ Ha) as [x Hx], (at_is_Some _ _ Hb) as [y Hy].
  rewrite Hx, Hy. eexists. split; [reflexivity |].
  split; [now rewrite !length_insert |].
  intros z. rewrite !at_insert by (rewrite ?length_insert; lia).
  destruct (Z.eqb_spec z b) as [-> | ?]; [now rewrite Hx |].
  destruct (Z.eqb_spec z a) as [-> | ?]; [now rewrite Hy | reflexivity].
Qed.

(** ** What a list of mirror swaps does to the buffer *)

Lemma hits_sym (i j : Z) (p : Z * Z) : hits i j p = hits j i p.
Proof. unfold hits. apply orb_comm. Qed.

Lemma flips_sym (l : list (Z * Z)) (i j : Z) : flips l i j = flips l j i.
Proof. induction l as [| p l IH]; simpl; [reflexivity |]. now rewrite IH, hits_sym. Qed.

Lemma flips_app (l1 l2 : list (Z * Z)) (i j : Z) :
  flips (l1 ++ l2) i j = xorb (flips l1 i j) (flips l2 i j).
Proof.
  induction l1 as [| p l1 IH]; simpl.
  - now destruct (flips l2 i j).
  - rewrite IH. now rewrite xorb_assoc.
Qed.

Lemma accesses_app (N2 : Z) (l1 l2 : list (Z * Z)) :
  accesses N2 (l1 ++ l2) = accesses N2 l1 ++ accesses N2 l2.
Proof. apply flat_map_app. Qed.

Lemma accesses_length (N2 : Z) (l : list (Z * Z)) :
  length (accesses N2 l) = (2 * length l)%nat.
Proof. induction l as [| p l IH]; simpl; lia. Qed.

Lemma accesses_In (N2 : Z) (l : list (Z * Z)) (x : Z) :
  In x (accesses N2 l) ->
  exists p, In p l /\ (x = p.1 * N2 + p.2 \/ x = p.2 * N2 + p.1).
Proof.
  unfold accesses. rewrite in_flat_map. intros [p [Hp Hx]].
  exists p. split; [assumption |]. simpl in Hx. intuition.
Qed.

(** The closed form: after the swaps of [l], cell [(i, j)] holds what
    cell [(j, i)] held if the pair was exchanged an odd number of times, and
    its own old value otherwise; every index that is not a cell of the logical
    matrix is left alone; the run stays inside the buffer. *)
Lemma mirror_swaps_sem (N N2 : Z) (l : list (Z * Z)) :
  N <= N2 -> Forall (in_range N) l ->
  forall s, N2 * N <= Z.of_nat (length (mem s)) ->
  exists m',
    mirror_swaps N2 l s = Done {| mem := m'; log := log s ++ accesses N2 l |} /\
    length m' = length (mem s) /\
    (forall i j, 0 <= i < N -> 0 <= j < N ->
       at_ m' (i * N2 + j)
       = at_ (mem s) (if flips l i j then j * N2 + i else i * N2 + j)) /\
    (forall x, (forall i j, 0 <= i < N -> 0 <= j < N -> x <> i * N2 + j) ->
       at_ m' x = at_ (mem s) x).
Proof.
  intros HN Hl. induction Hl as [| [a b] l [Ha Hb] Hl IH]; intros s Hlen.
  - exists (mem s). simpl. rewrite app_nil_r. destruct s; auto.
  - simpl in Ha, Hb.
    pose proof (idx_bound N N2 a b HN Ha Hb) as Hp.
    pose proof (idx_bound N N2 b a HN Hb Ha) as Hq.
    destruct (swap_sem s (a * N2 + b) (b * N2 + a)) as (m1 & E1 & L1 & G1);
      [lia | lia |].
    destruct (IH {| mem := m1; log := log s ++ [a * N2 + b; b * N2 + a] |})
      as (m' & E' & L' & G' & F'); [simpl; lia |].
    exists m'. simpl in *. unfold seq at 1. rewrite E1, E'.
    split; [now rewrite <- app_assoc |].
    split; [congruence |].
    split.
    + intros i j Hi Hj. rewrite G' by assumption. rewrite G1.
      f_equal. unfold hits; simpl.
      destruct (flips l i j); simpl;
        rewrite !idx_eqb by lia; zbool; simpl; subst; try reflexivity; lia.
    + intros x Hx. rewrite F' by assumption. rewrite G1.
      pose proof (Hx a b Ha Hb). pose proof (Hx b a Hb Ha).
      f_equal. zbool; try reflexivity; lia.
Qed.

(** ** Proof rules for commands and their traces *)

Section Rules.

Variable N2 : Z.

Lemma traces_skip : traces N2 skip [].
Proof. intros s. reflexivity. Qed.

Lemma traces_swap (i j : Z) : traces N2 (swap (i * N2 + j) (j * N2 + i)) [(i, j)].
Proof.
  intros s. simpl. unfold seq, skip.
  now destruct (swap (i * N2 + j) (j * N2 + i) s).
Qed.

Lemma mirror_swaps_app (l1 l2 : list (Z * Z)) (s : machine) :
  mirror_swaps N2 (l1 ++ l2) s = (mirror_swaps N2 l1 ;; mirror_swaps N2 l2) s.
Proof.
  revert s. induction l1 as [| [i j] l1 IH]; intros s; simpl.
  - reflexivity.
  - unfold seq. destruct (swap _ _ s) as [s1 | |]; [| reflexivity ..].
    rewrite IH. reflexivity.
Qed.

Lemma traces_seq (c1 c2 : cmd) (l1 l2 : list (Z * Z)) :
  traces N2 c1 l1 -> traces N2 c2 l2 -> traces N2 (c1 ;; c2) (l1 ++ l2).
Proof.
  intros H1 H2 s. rewrite mirror_swaps_app. unfold seq. rewrite H1.
  destruct (mirror_swaps N2 l1 s); [apply H2 | reflexivity ..].
Qed.

Lemma emits_weaken (c : cmd) (P Q : list (Z * Z) -> Prop) :
  emits N2 c P -> (forall l, P l -> Q l) -> emits N2 c Q.
Proof. intros (l & Ht & HP) HPQ. exists l. auto. Qed.

Lemma emits_swap (i j : Z) (Q : list (Z * Z) -> Prop) :
  Q [(i, j)] -> emits N2 (swap (i * N2 + j) (j * N2 + i)) Q.
Proof. intros HQ. exists [(i, j)]. split; [apply traces_swap | assumption]. Qed.

Lemma emits_seq (c1 c2 : cmd) (P Q : list (Z * Z) -> Prop) :
  emits N2 c1 P ->
  (forall l1, P l1 -> emits N2 c2 (fun l2 => Q (l1 ++ l2))) ->
  emits N2 (c1 ;; c2) Q.
Proof.
  intros (l1 & H1 & HP) H2. destruct (H2 l1 HP) as (l2 & H2' & HQ).
  exists (l1 ++ l2). split; [now apply traces_seq | assumption].
Qed.

(** The loop rule.  [Inv st l] relates the loop variable to the swaps done by
    the iterations so far; [mu] bounds the number of iterations still to come,
    so that the loop ends because its condition fails, within its fuel. *)
Lemma emits_for {St : Type} (Inv : St -> list (Z * Z) -> Prop) (mu : St -> nat)
    (cond : St -> bool) (next : St -> St) (body : St -> cmd) :
  (forall st l, Inv st l -> cond st = true ->
     (mu (next st) < mu st)%nat /\
     emits N2 (body st) (fun lb => Inv (next st) (l ++ lb))) ->
  forall fuel st l0, Inv st l0 -> (mu st <= fuel)%nat ->
  emits N2 (for_ fuel st cond next body)
    (fun lf => exists st', Inv st' (l0 ++ lf) /\ cond st' = false).
Proof.
  intros Hbody. induction fuel as [| fuel IH]; intros st l0 HI Hmu; simpl;
    destruct (cond st) eqn:Hc.
  - destruct (Hbody st l0 HI Hc) as [Hlt _]. lia.
  - exists []. split; [apply traces_skip |]. exists st. now rewrite app_nil_r.
  - destruct (Hbody st l0 HI Hc) as [Hlt Hb].
    eapply emits_seq; [exact Hb |]. intros lb HIb. cbv beta in HIb.
    eapply emits_weaken; [apply (IH (next st) (l0 ++ lb) HIb); lia |].
    intros lf (st' & HI' & Hc'). exists st'. now rewrite app_assoc.
  - exists []. split; [apply traces_skip |]. exists st. now rewrite app_nil_r.
Qed.

(** The same rule for a counter that climbs by [step] towards [hi]. *)
Lemma emits_for_Z (Inv : Z -> list (Z * Z) -> Prop) (hi step : Z)
    (cond : Z -> bool) (body : Z -> cmd) :
  0 < step ->
  (forall i l, Inv i l -> cond i = true ->
     i < hi /\ emits N2 (body i) (fun lb => Inv (i + step) (l ++ lb))) ->
  forall fuel lo l0, Inv lo l0 -> (Z.to_nat (hi - lo) <= fuel)%nat ->
  emits N2 (for_ fuel lo cond (fun i => i + step) body)
    (fun lf => exists i, Inv i (l0 ++ lf) /\ cond i = false).
Proof.
  intros Hstep Hbody fuel lo l0 HI Hfuel.
  apply (emits_for Inv (fun i => Z.to_nat (hi - i))); [| assumption ..].
  intros i l HIi Hc. destruct (Hbody i l HIi Hc) as [Hlt Hb].
  split; [lia | exact Hb].
Qed.

(** A loop all of whose iterations only swap cells of the logical matrix. *)
Lemma in_range_for {St : Type} (N : Z) (Inv : St -> Prop) (mu : St -> nat)
    (cond : St -> bool) (next : St -> St) (body : St -> cmd) :
  (forall st, Inv st -> cond st = true ->
     Inv (next st) /\ (mu (next st) < mu st)%nat /\
     emits N2 (body st) (Forall (in_range N))) ->
  forall fuel st, Inv st -> (mu st <= fuel)%nat ->
  emits N2 (for_ fuel st cond next body) (Forall (in_range N)).
Proof.
  intros Hbody fuel st HI Hmu.
  eapply emits_weaken.
  - apply (emits_for (fun st l => Inv st /\ Forall (in_range N) l) mu)
      with (l0 := []); [| split; [exact HI | constructor] | exact Hmu].
    intros st1 l [HI1 Hl] Hc. destruct (Hbody st1 HI1 Hc) as (HI2 & Hlt & Hb).
    split; [exact Hlt |]. eapply emits_weaken; [exact Hb |].
    intros lb Hlb. split; [exact HI2 | now apply Forall_app].
  - intros lf (st' & [_ Hl] & _). exact Hl.
Qed.

Lemma in_range_for_Z (N lo hi step : Z) (cond : Z -> bool) (body : Z -> cmd) :
  0 < step ->
  (forall i, lo <= i -> cond i = true ->
     i < hi /\ emits N2 (body i) (Forall (in_range N))) ->
  forall fuel, (Z.to_nat (hi - lo) <= fuel)%nat ->
  emits N2 (for_ fuel lo cond (fun i => i + step) body) (Forall (in_range N)).
Proof.
  intros Hstep Hbody fuel Hfuel.
  apply (in_range_for N (fun i => lo <= i) (fun i => Z.to_nat (hi - i)));
    [| lia | exact Hfuel].
  intros i Hi Hc. destruct (Hbody i Hi Hc) as [Hlt Hb].
  repeat split; [lia | lia | exact Hb].
Qed.

Lemma in_range_swap (N i j : Z) :
  0 <= i < N -> 0 <= j < N ->
  emits N2 (swap (i * N2 + j) (j * N2 + i)) (Forall (in_range N)).
Proof.
  intros Hi Hj. apply emits_swap. constructor; [| constructor]. now split.
Qed.

Lemma in_range_seq (N : Z) (c1 c2 : cmd) :
  emits N2 c1 (Forall (in_range N)) -> emits N2 c2 (Forall (in_range N)) ->
  emits N2 (c1 ;; c2) (Forall (in_range N)).
Proof.
  intros H1 H2. eapply emits_seq; [exact H1 |]. intros l1 Hl1.
  eapply emits_weaken; [exact H2 |]. intros l2 Hl2. now apply Forall_app.
Qed.

End Rules.

(** ** Every kernel only performs mirror swaps inside the logical matrix *)

(** Turns a loop condition that holds into the inequalities it stands for. *)
Ltac cond_true H :=
  cbv beta in H; rewrite ?andb_true_iff, ?Z.ltb_lt in H.

Ltac loop bound :=
  apply in_range_for_Z with (hi := bound); [lia | | lia];
  let i := fresh "i" in let Hi := fresh "Hi" in let Hc := fresh "Hc" in
  intros i Hi Hc; cond_true Hc; split; [lia |].

Lemma Transpose_Row_in_range (N N2 : Z) :
  emits N2 (Transpose_Row N N2) (Forall (in_range N)).
Proof.
  unfold Transpose_Row.
  loop N. loop N. apply in_range_swap; lia.
Qed.

Lemma Transpose_Block_in_range (N N2 B : Z) :
  0 < B -> emits N2 (Transpose_Block N N2 B) (Forall (in_range N)).
Proof.
  intros HB. unfold Transpose_Block.
  loop N. apply in_range_seq.
  - loop N. loop N. apply in_range_swap; lia.
  - loop N. loop N. loop N. apply in_range_swap; lia.
Qed.

Lemma Transpose_Block2_in_range (N N2 B B2 : Z) :
  0 < B -> 0 < B2 -> emits N2 (Transpose_Block2 N N2 B B2) (Forall (in_range N)).
Proof.
  intros HB HB2. unfold Transpose_Block2.
  loop N. apply in_range_seq.
  - loop N. apply in_range_seq.
    + loop N. loop N. apply in_range_swap; lia.
    + loop N. loop N. loop N. apply in_range_swap; lia.
  - loop N. loop N. loop N. loop N. loop N. apply in_range_swap; lia.
Qed.

(** The recursive kernel keeps the second corner the mirror image of the first
    one, [(i1, j1) = (j0, i0)], through all of its calls; under that invariant
    every swap is a mirror swap inside the matrix. *)
Lemma transpose_rec_in_range (N n i0 j0 : Z) :
  0 <= i0 -> 0 <= j0 ->
  emits N (transpose_rec N n i0 j0 j0 i0) (Forall (in_range N)).
Proof.
  remember (Z.to_nat n) as k eqn:Hk. revert n i0 j0 Hk.
  induction k as [k IH] using lt_wf_ind. intros n i0 j0 Hk Hi0 Hj0.
  rewrite transpose_rec_equation_1.
  destruct (Z_le_gt_dec n 4) as [Hn | Hn]; simpl.
  - destruct (Z.eqb_spec i0 j0) as [E | E].
    + loop (i0 + n). loop (i0 + n). apply in_range_swap; lia.
    + apply (in_range_for N N (fun st => i0 <= st.1 /\ st.2 = st.1)
               (fun st => Z.to_nat (i0 + n - st.1))); [| simpl; lia | simpl; lia].
      intros [i jj] [Hi Hjj] Hc. simpl in Hi, Hjj. cond_true Hc. subst jj.
      split; [simpl; lia |]. split; [simpl; lia |].
      apply (in_range_for N N (fun st => j0 <= st.1 /\ st.2 = st.1)
               (fun st => Z.to_nat (j0 + n - st.1))); [| simpl; lia | simpl; lia].
      intros [j ii] [Hj Hii] Hc'. simpl in Hj, Hii. cond_true Hc'. subst ii.
      split; [simpl; lia |]. split; [simpl; lia |].
      apply in_range_swap; lia.
  - pose proof (Z.quot_rem' n 2) as Hq. pose proof (Z.rem_bound_pos n 2) as Hr.
    set (h := n ÷ 2) in *.
    apply in_range_seq; [| apply in_range_seq].
    + apply (IH (Z.to_nat h)); lia.
    + apply (IH (Z.to_nat (n - h))); lia.
    + apply (IH (Z.to_nat (n - h))); lia.
Qed.

(** ** The row-by-row kernel swaps every off-diagonal pair exactly once *)

Lemma Transpose_Row_trace (N N2 : Z) :
  1 <= N -> emits N2 (Transpose_Row N N2) (row_trace N).
Proof.
  intros HN. unfold Transpose_Row.
  pose (Inner := fun (i j : Z) (l : list (Z * Z)) =>
    i < j <= N /\ Forall (in_range N) l /\ Forall (fun p => p.1 < p.2) l /\
    Z.of_nat (length l) = j - i - 1 /\
    forall a b, 0 <= a < N -> 0 <= b < N -> a <> b ->
      flips l a b = (Z.min a b =? i) && (Z.max a b <? j)).
  pose (Outer := fun (i : Z) (l : list (Z * Z)) =>
    0 <= i <= N /\ Forall (in_range N) l /\ Forall (fun p => p.1 < p.2) l /\
    Z.of_nat (length l) * 2 = i * (2 * N - i - 1) /\
    forall a b, 0 <= a < N -> 0 <= b < N -> a <> b ->
      flips l a b = (Z.min a b <? i)).
  eapply emits_weaken.
  - apply (emits_for_Z N2 Outer N 1) with (l0 := []); [lia | | | lia].
    + intros i l (Hi & Hr & Hlt & Hlen & Hfl) Hc. cond_true Hc.
      split; [lia |].
      eapply emits_weaken.
      * apply (emits_for_Z N2 (Inner i) N 1) with (l0 := []); [lia | | | lia].
        -- intros j lj (Hj & Hrj & Hltj & Hlenj & Hflj) Hcj. cond_true Hcj.
           split; [lia |]. apply emits_swap.
           split; [lia |]. split; [| split; [| split]].
           ++ apply Forall_app. split; [assumption |].
              constructor; [split; simpl; lia | constructor].
           ++ apply Forall_app. split; [assumption |].
              constructor; [simpl; lia | constructor].
           ++ rewrite length_app. simpl. lia.
           ++ intros a b Ha Hb Hab. rewrite flips_app, Hflj by assumption.
              simpl. unfold hits. simpl. zbool; simpl; try reflexivity; lia.
        -- split; [lia |]. split; [constructor |]. split; [constructor |].
           split; [simpl; lia |].
           intros a b Ha Hb Hab. simpl. zbool; simpl; try reflexivity; lia.
      * intros lb (j & (Hj & Hrj & Hltj & Hlenj & Hflj) & Hcj).
        simpl in Hrj, Hltj, Hlenj, Hflj. cbv beta in Hcj.
        apply Z.ltb_ge in Hcj. assert (j = N) as -> by lia.
        split; [lia |]. split; [| split; [| split]].
        -- now apply Forall_app.
        -- now apply Forall_app.
        -- rewrite length_app. nia.
        -- intros a b Ha Hb Hab. rewrite flips_app, Hfl, Hflj by assumption.
           zbool; simpl; try reflexivity; lia.
    + split; [lia |]. split; [constructor |]. split; [constructor |].
      split; [simpl; lia |].
      intros a b Ha Hb Hab. simpl. zbool; simpl; try reflexivity; lia.
  - intros l (i & (Hi & Hr & Hlt & Hlen & Hfl) & Hc).
    simpl in Hr, Hlt, Hlen, Hfl. cbv beta in Hc.
    apply Z.ltb_ge in Hc. assert (i = N) as -> by lia.
    split; [assumption |]. split; [assumption |]. split; [lia |].
    intros a b Ha Hb Hab. rewrite Hfl by assumption. zbool; try reflexivity; lia.
Qed.

(** ** From traces to runs *)

Lemma at_ext (m m' : list Z) :
  length m = length m' -> (forall x, 0 <= x -> at_ m x = at_ m' x) -> m = m'.
Proof.
  intros _ H. apply list_eq. intros n.
  specialize (H (Z.of_nat n) ltac:(lia)). unfold at_ in H.
  destruct (Z.ltb_spec (Z.of_nat n) 0); [lia |].
  now rewrite Nat2Z.id in H.
Qed.

(** An index with a column in the padding is not a cell of the matrix. *)
Lemma not_a_cell (N N2 r c : Z) :
  N <= N2 -> 0 <= c < N2 -> ~ (0 <= r < N /\ c < N) ->
  forall i j, 0 <= i < N -> 0 <= j < N -> r * N2 + c <> i * N2 + j.
Proof.
  intros HN Hc Hout i j Hi Hj E.
  apply idx_inj in E as [-> ->]; lia.
Qed.

Section Runs.

Variables (N N2 : Z) (c : cmd).
Hypothesis HN : 1 <= N.
Hypothesis HN2 : N <= N2.
Hypothesis Hc : emits N2 c (Forall (in_range N)).

(** A command that only performs mirror swaps inside the matrix runs to
    completion from every buffer that holds the [N2 * N] cells, and its effect
    has the closed form of [mirror_swaps_sem]. *)
Lemma run_closed_form :
  exists l, Forall (in_range N) l /\
    forall m, N2 * N <= Z.of_nat (length m) ->
    exists m',
      c (boot m) = Done {| mem := m'; log := accesses N2 l |} /\
      length m' = length m /\
      (forall i j, 0 <= i < N -> 0 <= j < N ->
         at_ m' (i * N2 + j)
         = at_ m (if flips l i j then j * N2 + i else i * N2 + j)) /\
      (forall x, (forall i j, 0 <= i < N -> 0 <= j < N -> x <> i * N2 + j) ->
         at_ m' x = at_ m x).
Proof.
  destruct Hc as (l & Ht & Hl). exists l. split; [exact Hl |].
  intros m Hm. rewrite Ht.
  exact (mirror_swaps_sem N N2 l HN2 Hl (boot m) Hm).
Qed.

Lemma accesses_are_cells (l : list (Z * Z)) (x : Z) :
  Forall (in_range N) l -> In x (accesses N2 l) ->
  exists i j, 0 <= i < N /\ 0 <= j < N /\ x = i * N2 + j.
Proof.
  intros Hl Hx. apply accesses_In in Hx as ([a b] & Hp & Hx).
  rewrite List.Forall_forall in Hl. destruct (Hl _ Hp) as [Ha Hb]. simpl in *.
  destruct Hx as [-> | ->]; eauto.
Qed.

End Runs.

Section Consequences.

Variables (N N2 : Z) (c : cmd) (m : list Z).
Hypothesis HN : 1 <= N.
Hypothesis HN2 : N <= N2.
Hypothesis Hc : emits N2 c (Forall (in_range N)).
Hypothesis Hm : N2 * N <= Z.of_nat (length m).

Lemma emits_safe : safe c m.
Proof.
  destruct (run_closed_form N N2 c HN2 Hc) as (l & Hl & Hrun).
  destruct (Hrun m Hm) as (m' & E & _). eexists. split; [exact E |].
  simpl. apply List.Forall_forall. intros x Hx.
  destruct (accesses_are_cells N N2 l x Hl Hx) as (i & j & Hi & Hj & ->).
  pose proof (idx_bound N N2 i j HN2 Hi Hj). lia.
Qed.

Lemma emits_diagonal_fixed : diagonal_fixed N N2 c m.
Proof.
  destruct (run_closed_form N N2 c HN2 Hc) as (l & Hl & Hrun).
  destruct (Hrun m Hm) as (m' & E & _ & Hcell & _).
  exists m'. unfold run. rewrite E. split; [reflexivity |].
  intros i Hi. unfold elem. rewrite Hcell by assumption.
  now destruct (flips l i i).
Qed.

Lemma emits_padding_untouched : padding_untouched N N2 c m.
Proof.
  destruct (run_closed_form N N2 c HN2 Hc) as (l & Hl & Hrun).
  destruct (Hrun m Hm) as (m' & E & _ & _ & Hrest).
  eexists. split; [exact E |]. simpl. split.
  - intros x Hx. exact (accesses_are_cells N N2 l x Hl Hx).
  - intros r k Hk.
    assert (Hno : forall i j, 0 <= i < N -> 0 <= j < N -> r * N2 + k <> i * N2 + j)
      by (apply (not_a_cell N N2); lia).
    split.
    + intros Hx. destruct (accesses_are_cells N N2 l _ Hl Hx) as (i & j & Hi & Hj & E').
      exact (Hno i j Hi Hj E').
    + unfold elem. now apply Hrest.
Qed.

Lemma emits_involutive : involutive c m.
Proof.
  destruct (run_closed_form N N2 c HN2 Hc) as (l & Hl & Hrun).
  destruct (Hrun m Hm) as (m1 & E1 & L1 & C1 & R1).
  destruct (Hrun m1 ltac:(lia)) as (m2 & E2 & L2 & C2 & R2).
  exists m1. unfold run. rewrite E1, E2. simpl. split; [reflexivity |].
  f_equal. apply at_ext; [congruence |].
  intros x Hx.
  destruct (idx_split N2 x ltac:(lia) Hx) as (r & k & Hr & Hk & ->).
  destruct (Z_lt_dec r N) as [Hr' |]; [destruct (Z_lt_dec k N) as [Hk' |] |].
  - rewrite C2 by lia. destruct (flips l r k) eqn:F.
    + rewrite C1 by lia. now rewrite flips_sym, F.
    + rewrite C1 by lia. now rewrite F.
  - rewrite R2, R1; [reflexivity | |]; apply (not_a_cell N N2); lia.
  - rewrite R2, R1; [reflexivity | |]; apply (not_a_cell N N2); lia.
Qed.

End Consequences.

(** ** The padded stride *)

Lemma pad_unfold (N : Z) :
  0 <= N -> pad N = N + (64 + 47 - N mod 64) mod 64.
Proof.
  intros HN. unfold pad, pad_with, PAD. simpl negb. cbv iota.
  pose proof (Z.mod_pos_bound N 64 ltac:(lia)).
  rewrite (Z.rem_mod_nonneg N 64) by lia.
  rewrite Z.rem_mod_nonneg by lia. reflexivity.
Qed.

Lemma pad_ge (N : Z) : 0 <= N -> N <= pad N.
Proof.
  intros HN. rewrite pad_unfold by assumption.
  pose proof (Z.mod_pos_bound (64 + 47 - N mod 64) 64 ltac:(lia)). lia.
Qed.

(** In this range no step of [pad] leaves the 32-bit [int]. *)
Lemma pad_fits_int (N : Z) :
  0 <= N <= 2147483647 - 63 ->
  0 <= 64 + PAD - Z.rem N 64 <= 2147483647 /\ 0 <= pad N <= 2147483647.
Proof.
  intros HN. rewrite pad_unfold by lia. unfold PAD.
  rewrite (Z.rem_mod_nonneg N 64) by lia.
  pose proof (Z.mod_pos_bound N 64 ltac:(lia)).
  pose proof (Z.mod_pos_bound (64 + 47 - N mod 64) 64 ltac:(lia)). lia.
Qed.

(** C6. For every [N >= 1] for which the sum in [pad] fits a 32-bit [int]
    ([N <= 2147483631], the largest [int] congruent to 47 modulo 64),
    [pad N] (residue 47) is the smallest stride that is at least [N] and
    congruent to 47 modulo 64; it exceeds [N] by less than [64 + 47]; and
    with residue 0 the dimension is returned unchanged.  Being a function of
    [N] alone, [pad] is pure and deterministic. *)
Theorem pad_smallest_stride (N : Z) :
  1 <= N -> N <= 2147483631 ->
  N <= pad N /\
  pad N mod 64 = 47 /\
  (forall stride, N <= stride -> stride mod 64 = 47 -> pad N <= stride) /\
  pad N - N < 64 + 47 /\
  pad_with 0 N = N.
Proof.
  intros HN _. rewrite pad_unfold by lia.
  split; [| split; [| split; [| split]]].
  - Z.to_euclidean_division_equations. lia.
  - Z.to_euclidean_division_equations. lia.
  - intros stride Hs Hmod. Z.to_euclidean_division_equations. lia.
  - Z.to_euclidean_division_equations. lia.
  - unfold pad_with. simpl. lia.
Qed.

Lemma pad_smallest_stride_witness :
  (1 <= 4096 /\ 4096 <= 2147483631) /\
  (4096 <= pad 4096 /\
   pad 4096 mod 64 = 47 /\
   (forall stride, 4096 <= stride -> stride mod 64 = 47 -> pad 4096 <= stride) /\
   pad 4096 - 4096 < 64 + 47 /\
   pad_with 0 4096 = 4096).
Proof.
  split; [lia |]. apply (pad_smallest_stride 4096); lia.
Defined.

(** ** The row-by-row kernel *)

(** C4. For every [N >= 1] and stride [N2 >= N] whose subscripts fit a 32-bit
    [int] ([N2 * N <= 2147483647]), the row-by-row kernel leaves at [(i, j)]
    the element that was at [(j, i)], for all [0 <= i, j < N]; it makes
    [N (N - 1) / 2] swaps (two accesses each) and never touches the
    diagonal; and for [N = 3], stride 3, the buffer [1 .. 9] becomes
    [1, 4, 7, 2, 5, 8, 3, 6, 9]. *)
Theorem Transpose_Row_correct (N N2 : Z) (m : list Z) :
  1 <= N -> N <= N2 -> N2 * N <= 2147483647 ->
  N2 * N <= Z.of_nat (length m) ->
  transposes N N2 (Transpose_Row N N2) m /\
  (exists s', Transpose_Row N N2 (boot m) = Done s' /\
     Z.of_nat (length (log s')) = 2 * (N * (N - 1) / 2) /\
     forall i, 0 <= i < N -> ~ In (i * N2 + i) (log s')) /\
  run (Transpose_Row 3 3) [1; 2; 3; 4; 5; 6; 7; 8; 9]
  = Some [1; 4; 7; 2; 5; 8; 3; 6; 9].
Proof.
  intros HN HN2 _ Hm.
  destruct (Transpose_Row_trace N N2 HN) as (l & Ht & Hl & Hlt & Hlen & Hfl).
  destruct (mirror_swaps_sem N N2 l HN2 Hl (boot m) Hm)
    as (m' & E & L & Hcell & _).
  rewrite <- Ht in E. simpl in E, L.
  split; [| split; [| reflexivity]].
  - exists m'. unfold run. rewrite E. split; [reflexivity |]. split; [exact L |].
    intros i j Hi Hj. unfold elem. split.
    + apply at_is_Some. pose proof (idx_bound N N2 j i HN2 Hj Hi). lia.
    + rewrite Hcell by assumption.
      destruct (Z.eq_dec i j) as [-> | Hne]; [now destruct (flips l j j) |].
      now rewrite Hfl.
  - eexists. split; [exact E |]. simpl. split.
    + rewrite accesses_length. Z.to_euclidean_division_equations. nia.
    + intros i Hi Hin. apply accesses_In in Hin as ([a b] & Hp & Hx).
      rewrite List.Forall_forall in Hl, Hlt.
      pose proof (Hlt _ Hp) as Hab. destruct (Hl _ Hp) as [Ha Hb]. simpl in *.
      destruct Hx as [Hx | Hx]; apply idx_inj in Hx; lia.
Qed.

Lemma Transpose_Row_correct_witness :
  (1 <= 3 /\ 3 <= 3 /\ 3 * 3 <= 2147483647 /\
   3 * 3 <= Z.of_nat (length [1; 2; 3; 4; 5; 6; 7; 8; 9])) /\
  (transposes 3 3 (Transpose_Row 3 3) [1; 2; 3; 4; 5; 6; 7; 8; 9] /\
   (exists s', Transpose_Row 3 3 (boot [1; 2; 3; 4; 5; 6; 7; 8; 9]) = Done s' /\
      Z.of_nat (length (log s')) = 2 * (3 * (3 - 1) / 2) /\
      forall i, 0 <= i < 3 -> ~ In (i * 3 + i) (log s')) /\
   run (Transpose_Row 3 3) [1; 2; 3; 4; 5; 6; 7; 8; 9]
   = Some [1; 4; 7; 2; 5; 8; 3; 6; 9]).
Proof.
  split; [simpl; lia |].
  apply (Transpose_Row_correct 3 3 [1; 2; 3; 4; 5; 6; 7; 8; 9]); simpl; lia.
Defined.

(** ** Properties shared by the four kernels *)

(** C5. For every [N >= 1], each of the four kernels, run twice in a row on
    the same buffer with the same layout, gives back the buffer it started
    from, cell by cell (padding included).  The stride is any [N2 >= N] and
    the tile widths any positive [B], [B2] for the row, block and two-level
    kernels; the recursive kernel runs on the unpadded layout.  The
    subscripts and the loop bounds are required to fit a 32-bit [int]:
    [N2 * N], [N * N], [N + B] and [N + B2] are at most 2147483647. *)
Theorem transpose_twice_restores (N N2 B B2 : Z) (m mr : list Z) :
  1 <= N -> N <= N2 -> N2 * N <= 2147483647 -> N * N <= 2147483647 ->
  0 < B -> 0 < B2 -> N + B <= 2147483647 -> N + B2 <= 2147483647 ->
  N2 * N <= Z.of_nat (length m) -> N * N <= Z.of_nat (length mr) ->
  involutive (Transpose_Row N N2) m /\
  involutive (Transpose_Block N N2 B) m /\
  involutive (Transpose_Block2 N N2 B B2) m /\
  involutive (BM_Transpose_Rec N) mr.
Proof.
  intros HN HN2 _ _ HB HB2 _ _ Hm Hmr.
  split; [| split; [| split]].
  - apply (emits_involutive N N2); auto using Transpose_Row_in_range.
  - apply (emits_involutive N N2); auto using Transpose_Block_in_range.
  - apply (emits_involutive N N2); auto using Transpose_Block2_in_range.
  - apply (emits_involutive N N); auto; [lia |].
    apply transpose_rec_in_range; lia.
Qed.

Lemma transpose_twice_restores_witness :
  (1 <= 5 /\ 5 <= pad 5 /\ pad 5 * 5 <= 2147483647 /\ 5 * 5 <= 2147483647 /\
   0 < 2 /\ 0 < 4 /\ 5 + 2 <= 2147483647 /\ 5 + 4 <= 2147483647 /\
   pad 5 * 5 <= Z.of_nat (length (iota 235)) /\
   5 * 5 <= Z.of_nat (length (iota 25))) /\
  (involutive (Transpose_Row 5 (pad 5)) (iota 235) /\
   involutive (Transpose_Block 5 (pad 5) 2) (iota 235) /\
   involutive (Transpose_Block2 5 (pad 5) 2 4) (iota 235) /\
   involutive (BM_Transpose_Rec 5) (iota 25)).
Proof.
  split; [vm_compute; intuition discriminate |].
  apply (transpose_twice_restores 5 (pad 5) 2 4 (iota 235) (iota 25));
    vm_compute; intuition discriminate.
Defined.

(** C8. For every [N >= 1], every buffer and every [0 <= i < N], each of the
    four kernels leaves the element at [(i, i)] as it was; the subscripts
    and the loop bounds are required to fit a 32-bit [int] ([N2 * N],
    [N * N], [N + B] and [N + B2] at most 2147483647). *)
Theorem diagonal_is_fixed (N N2 B B2 : Z) (m mr : list Z) :
  1 <= N -> N <= N2 -> N2 * N <= 2147483647 -> N * N <= 2147483647 ->
  0 < B -> 0 < B2 -> N + B <= 2147483647 -> N + B2 <= 2147483647 ->
  N2 * N <= Z.of_nat (length m) -> N * N <= Z.of_nat (length mr) ->
  diagonal_fixed N N2 (Transpose_Row N N2) m /\
  diagonal_fixed N N2 (Transpose_Block N N2 B) m /\
  diagonal_fixed N N2 (Transpose_Block2 N N2 B B2) m /\
  diagonal_fixed N N (BM_Transpose_Rec N) mr.
Proof.
  intros HN HN2 _ _ HB HB2 _ _ Hm Hmr.
  split; [| split; [| split]].
  - apply emits_diagonal_fixed; auto using Transpose_Row_in_range.
  - apply emits_diagonal_fixed; auto using Transpose_Block_in_range.
  - apply emits_diagonal_fixed; auto using Transpose_Block2_in_range.
  - apply emits_diagonal_fixed; auto; [lia |].
    apply transpose_rec_in_range; lia.
Qed.

Lemma diagonal_is_fixed_witness :
  (1 <= 5 /\ 5 <= pad 5 /\ pad 5 * 5 <= 2147483647 /\ 5 * 5 <= 2147483647 /\
   0 < 2 /\ 0 < 4 /\ 5 + 2 <= 2147483647 /\ 5 + 4 <= 2147483647 /\
   pad 5 * 5 <= Z.of_nat (length (iota 235)) /\
   5 * 5 <= Z.of_nat (length (iota 25))) /\
  (diagonal_fixed 5 (pad 5) (Transpose_Row 5 (pad 5)) (iota 235) /\
   diagonal_fixed 5 (pad 5) (Transpose_Block 5 (pad 5) 2) (iota 235) /\
   diagonal_fixed 5 (pad 5) (Transpose_Block2 5 (pad 5) 2 4) (iota 235) /\
   diagonal_fixed 5 5 (BM_Transpose_Rec 5) (iota 25)).
Proof.
  split; [vm_compute; intuition discriminate |].
  apply (diagonal_is_fixed 5 (pad 5) 2 4 (iota 235) (iota 25));
    vm_compute; intuition discriminate.
Defined.

(** C9. For every [N >= 1], with the stride [pad N], one run of the row,
    block or two-level kernel accesses the buffer only at indices
    [i * stride + j] with [0 <= i, j < N]; every padding cell
    [r * stride + k] with [N <= k < stride] is neither read nor written and
    holds its original value afterwards.  The stride, the subscripts and the
    loop bounds are required to fit a 32-bit [int] ([pad N * N], [N + B] and
    [N + B2] at most 2147483647). *)
Theorem padding_never_observed (N B B2 : Z) (m : list Z) :
  1 <= N -> pad N * N <= 2147483647 ->
  0 < B -> 0 < B2 -> N + B <= 2147483647 -> N + B2 <= 2147483647 ->
  pad N * N <= Z.of_nat (length m) ->
  padding_untouched N (pad N) (Transpose_Row N (pad N)) m /\
  padding_untouched N (pad N) (Transpose_Block N (pad N) B) m /\
  padding_untouched N (pad N) (Transpose_Block2 N (pad N) B B2) m.
Proof.
  intros HN _ HB HB2 _ _ Hm. pose proof (pad_ge N ltac:(lia)) as HN2.
  split; [| split].
  - apply emits_padding_untouched; auto using Transpose_Row_in_range.
  - apply emits_padding_untouched; auto using Transpose_Block_in_range.
  - apply emits_padding_untouched; auto using Transpose_Block2_in_range.
Qed.

Lemma padding_never_observed_witness :
  (1 <= 5 /\ pad 5 * 5 <= 2147483647 /\
   0 < 2 /\ 0 < 4 /\ 5 + 2 <= 2147483647 /\ 5 + 4 <= 2147483647 /\
   pad 5 * 5 <= Z.of_nat (length (iota 235))) /\
  (padding_untouched 5 (pad 5) (Transpose_Row 5 (pad 5)) (iota 235) /\
   padding_untouched 5 (pad 5) (Transpose_Block 5 (pad 5) 2) (iota 235) /\
   padding_untouched 5 (pad 5) (Transpose_Block2 5 (pad 5) 2 4) (iota 235)).
Proof.
  split; [vm_compute; intuition discriminate |].
  apply (padding_never_observed 5 2 4 (iota 235));
    vm_compute; intuition discriminate.
Defined.

(** C10. Under [N >= 1], [stride >= N] and a buffer of at least [stride * N]
    cells (at least [N * N] cells and stride [N] for the recursive kernel),
    with [stride * N], [N * N] and the loop bounds [N + B], [N + B2] inside
    a 32-bit [int], each of the four kernels runs to completion, and every
    index it computes lies in [0, buffer length). *)
Theorem in_bounds_totality (N N2 B B2 : Z) (m mr : list Z) :
  1 <= N -> N <= N2 -> N2 * N <= 2147483647 -> N * N <= 2147483647 ->
  0 < B -> 0 < B2 -> N + B <= 2147483647 -> N + B2 <= 2147483647 ->
  N2 * N <= Z.of_nat (length m) -> N * N <= Z.of_nat (length mr) ->
  safe (Transpose_Row N N2) m /\
  safe (Transpose_Block N N2 B) m /\
  safe (Transpose_Block2 N N2 B B2) m /\
  safe (BM_Transpose_Rec N) mr.
Proof.
  intros HN HN2 _ _ HB HB2 _ _ Hm Hmr.
  split; [| split; [| split]].
  - apply (emits_safe N N2); auto using Transpose_Row_in_range.
  - apply (emits_safe N N2); auto using Transpose_Block_in_range.
  - apply (emits_safe N N2); auto using Transpose_Block2_in_range.
  - apply (emits_safe N N); auto; [lia |].
    apply transpose_rec_in_range; lia.
Qed.

Lemma in_bounds_totality_witness :
  (1 <= 5 /\ 5 <= pad 5 /\ pad 5 * 5 <= 2147483647 /\ 5 * 5 <= 2147483647 /\
   0 < 2 /\ 0 < 4 /\ 5 + 2 <= 2147483647 /\ 5 + 4 <= 2147483647 /\
   pad 5 * 5 <= Z.of_nat (length (iota 235)) /\
   5 * 5 <= Z.of_nat (length (iota 25))) /\
  (safe (Transpose_Row 5 (pad 5)) (iota 235) /\
   safe (Transpose_Block 5 (pad 5) 2) (iota 235) /\
   safe (Transpose_Block2 5 (pad 5) 2 4) (iota 235) /\
   safe (BM_Transpose_Rec 5) (iota 25)).
Proof.
  split; [vm_compute; intuition discriminate |].
  apply (in_bounds_totality 5 (pad 5) 2 4 (iota 235) (iota 25));
    vm_compute; intuition discriminate.
Defined.

(** ** Where the tiled and the recursive kernels stop short of a transpose *)

(** C1. The diagonal tile of the block kernel starts its inner loop at
    [j = k + 1] in every row [i] of the tile, not at [j = i + 1]: a pair
    [(i, j)] with [k < i < j] is swapped twice and ends where it began.
    With the constants of the source ([B = 64], stride [pad 3 = 47]) and
    [N = 3], cell [(1, 2)] still holds its own old value 49, not the 95 that
    was at [(2, 1)]. *)
Theorem Transpose_Block_diagonal_tile :
  (exists m', run (BM_Transpose_Block 3) (iota 141) = Some m' /\
     elem (pad 3) (iota 141) 2 1 = Some 95 /\
     elem (pad 3) m' 1 2 = Some 49) /\
  ~ transposes 3 (pad 3) (BM_Transpose_Block 3) (iota 141).
Proof.
  split.
  - eexists. split; [vm_compute; reflexivity |]. split; reflexivity.
  - intros (m' & Hrun & _ & H). vm_compute in Hrun. injection Hrun as <-.
    destruct (H 1 2 ltac:(lia) ltac:(lia)) as [_ E]. vm_compute in E. discriminate.
Qed.

(** C2. On the same [3 x 3] input (stride [pad 3], cells [0 .. 140]) the
    row-by-row kernel and the two tiled kernels do not leave the same logical
    matrix: at [(1, 2)] the first holds 95, the other two 49.  On the
    unpadded [5 x 5] input the row-by-row kernel and the recursive kernel
    differ at [(2, 3)]. *)
Theorem kernels_disagree :
  (exists mrow mblock mblock2,
     run (BM_Transpose_Row 3) (iota 141) = Some mrow /\
     run (BM_Transpose_Block 3) (iota 141) = Some mblock /\
     run (BM_Transpose_Block2 3) (iota 141) = Some mblock2 /\
     elem (pad 3) mrow 1 2 = Some 95 /\
     elem (pad 3) mblock 1 2 = Some 49 /\
     elem (pad 3) mblock2 1 2 = Some 49) /\
  (exists mrow mrec,
     run (Transpose_Row 5 5) (iota 25) = Some mrow /\
     run (BM_Transpose_Rec 5) (iota 25) = Some mrec /\
     elem 5 mrow 2 3 = Some 17 /\
     elem 5 mrec 2 3 = Some 13).
Proof.
  split.
  - do 3 eexists. repeat (split; [vm_compute; reflexivity |]). reflexivity.
  - do 2 eexists. repeat (split; [vm_compute; reflexivity |]). reflexivity.
Qed.

(** C3. For [N = 7] the recursive kernel splits [7] into [3] and [4] and hands
    the cross pairing a [4 x 4] square where the off-diagonal quadrant is
    [4 x 3]: the extra column lies in the lower-right quadrant, whose cells are
    then swapped a second time.  Cell [(3, 4)] keeps its own value 25, not the
    31 that was at [(4, 3)]. *)
Theorem transpose_rec_odd_split :
  (exists m', run (BM_Transpose_Rec 7) (iota 49) = Some m' /\
     elem 7 (iota 49) 4 3 = Some 31 /\
     elem 7 m' 3 4 = Some 25) /\
  ~ transposes 7 7 (BM_Transpose_Rec 7) (iota 49).
Proof.
  split.
  - eexists. split; [vm_compute; reflexivity |]. split; reflexivity.
  - intros (m' & Hrun & _ & H). vm_compute in Hrun. injection Hrun as <-.
    destruct (H 3 4 ltac:(lia) ltac:(lia)) as [_ E]. vm_compute in E. discriminate.
Qed.

(** C7. For [N = 16] the cross pairing of the two [8 x 8] off-diagonal
    quadrants recurses on three of its four [4 x 4] sub-quadrants only: the
    pair of blocks at [(8, 4)] and [(4, 8)] is never visited.  Cell [(4, 8)]
    keeps its own value 72, where the row-by-row kernel with stride 16 puts
    the 132 that was at [(8, 4)]. *)
Theorem transpose_rec_power_of_two :
  (exists mrec mrow,
     run (BM_Transpose_Rec 16) (iota 256) = Some mrec /\
     run (Transpose_Row 16 16) (iota 256) = Some mrow /\
     elem 16 (iota 256) 8 4 = Some 132 /\
     elem 16 mrow 4 8 = Some 132 /\
     elem 16 mrec 4 8 = Some 72) /\
  ~ transposes 16 16 (BM_Transpose_Rec 16) (iota 256).
Proof.
  split.
  - do 2 eexists. repeat (split; [vm_compute; reflexivity |]). reflexivity.
  - intros (m' & Hrun & _ & H). vm_compute in Hrun. injection Hrun as <-.
    destruct (H 4 8 ltac:(lia) ltac:(lia)) as [_ E]. vm_compute in E. discriminate.
Qed.

(** ** More about the padded stride *)

(** The arithmetic of [pad_with] for every residue [0 < P < 64]: the least
    integer that is at least [N] and congruent to [P] modulo 64, at most 63
    above [N].  The remainder of C truncates, and the formula is also right
    for negative [N]. *)
Lemma pad_with_arith (P N : Z) :
  0 < P < 64 ->
  N <= pad_with P N < N + 64 /\
  pad_with P N mod 64 = P /\
  (forall s, N <= s -> s mod 64 = P -> pad_with P N <= s).
Proof.
  intros HP. unfold pad_with.
  destruct (Z.eqb_spec P 0); [lia |]. simpl negb. cbv iota.
  pose proof (Z.quot_rem' N 64).
  pose proof (Z.quot_rem' (64 + P - Z.rem N 64) 64).
  assert (-64 < Z.rem N 64 < 64) by (pose proof (Z.rem_bound_abs N 64); lia).
  pose proof (Z.rem_bound_pos (64 + P - Z.rem N 64) 64).
  repeat split.
  - lia.
  - lia.
  - Z.to_euclidean_division_equations. lia.
  - intros s Hs Hm. Z.to_euclidean_division_equations. lia.
Qed.

(** X1. For every residue [0 < P < 64] and every [int] [N], negative ones
    included, for which the sum [N + ...] cannot overflow
    ([N <= 2147483647 - 63]), the padded stride is the least integer that is
    at least [N] and congruent to [P] modulo 64, and it exceeds [N] by at
    most 63. *)
Theorem pad_with_least (P N : Z) :
  0 < P < 64 -> -2147483648 <= N <= 2147483647 - 63 ->
  N <= pad_with P N < N + 64 /\
  pad_with P N mod 64 = P /\
  (forall s, N <= s -> s mod 64 = P -> pad_with P N <= s).
Proof.
  intros HP _. now apply pad_with_arith.
Qed.

Lemma pad_with_least_witness :
  (0 < 47 < 64 /\ -2147483648 <= -5 <= 2147483647 - 63) /\
  (-5 <= pad_with 47 (-5) < -5 + 64 /\
   pad_with 47 (-5) mod 64 = 47 /\
   (forall s, -5 <= s -> s mod 64 = 47 -> pad_with 47 (-5) <= s)).
Proof.
  split; [lia |]. apply (pad_with_least 47 (-5)); lia.
Defined.

(** X2. For every [int] [N <= 2147483631] (where [pad] cannot overflow): the
    stride equals [N] exactly when [N] is already congruent to 47 modulo 64
    (so the result is at least [N], not always greater); padding a padded
    stride changes nothing; and the stride is never even. *)
Theorem pad_fixed_points (N : Z) :
  -2147483648 <= N <= 2147483631 ->
  (pad N = N <-> N mod 64 = 47) /\
  pad (pad N) = pad N /\
  pad N mod 2 = 1.
Proof.
  intros _.
  destruct (pad_with_arith 47 N ltac:(lia)) as (Hb & Hm & Hleast).
  destruct (pad_with_arith 47 (pad N) ltac:(lia)) as (Hb' & Hm' & Hleast').
  change (pad_with 47 (pad N)) with (pad (pad N)) in *.
  change (pad_with 47 N) with (pad N) in *.
  split; [split |]; [| | split].
  - intros E. now rewrite E in Hm.
  - intros E. pose proof (Hleast N ltac:(lia) E). lia.
  - pose proof (Hleast' (pad N) ltac:(lia) Hm). lia.
  - Z.to_euclidean_division_equations. lia.
Qed.

Lemma pad_fixed_points_witness :
  -2147483648 <= 4096 <= 2147483631 /\
  ((pad 4096 = 4096 <-> 4096 mod 64 = 47) /\
   pad (pad 4096) = pad 4096 /\
   pad 4096 mod 2 = 1).
Proof.
  split; [lia |]. apply (pad_fixed_points 4096). lia.
Defined.

(** X3. Among the [int] dimensions up to 2147483631 (where [pad] cannot
    overflow) a larger dimension never gets a smaller stride. *)
Theorem pad_monotone (N M : Z) :
  -2147483648 <= N -> N <= M -> M <= 2147483631 -> pad N <= pad M.
Proof.
  intros _ H _.
  destruct (pad_with_arith 47 N ltac:(lia)) as (_ & _ & Hleast).
  destruct (pad_with_arith 47 M ltac:(lia)) as (Hb & Hm & _).
  change (pad_with 47 N) with (pad N) in *.
  change (pad_with 47 M) with (pad M) in *.
  apply Hleast; [lia | exact Hm].
Qed.

Lemma pad_monotone_witness :
  (-2147483648 <= 64 /\ 64 <= 4096 /\ 4096 <= 2147483631) /\ pad 64 <= pad 4096.
Proof. split; [lia |]. apply (pad_monotone 64 4096); lia. Defined.

(** ** Runs without the log: permutations, repeated runs, faults *)

Lemma swap_mem_length (a b : Z) (m m1 : list Z) :
  swap_mem a b m = Some m1 -> length m1 = length m.
Proof.
  unfold swap_mem. destruct (at_ m a), (at_ m b); try discriminate.
  intros [= <-]. now rewrite !length_insert.
Qed.

Lemma swap_mem_perm (a b : Z) (m m1 : list Z) :
  swap_mem a b m = Some m1 -> m1 ≡ₚ m.
Proof.
  unfold swap_mem, at_.
  destruct (Z.ltb_spec a 0); [discriminate |].
  destruct (Z.ltb_spec b 0); [destruct (m !! Z.to_nat a); discriminate |].
  destruct (m !! Z.to_nat a) as [x |] eqn:Ea; [| discriminate].
  destruct (m !! Z.to_nat b) as [y |] eqn:Eb; [| discriminate].
  intros [= <-]. now apply Permutation_insert_swap.
Qed.

Lemma swap_mem_None (a b : Z) (m : list Z) :
  Z.of_nat (length m) <= a \/ Z.of_nat (length m) <= b -> swap_mem a b m = None.
Proof.
  intros H. unfold swap_mem.
  destruct (at_ m a) as [x |] eqn:Ea; [| reflexivity].
  destruct (at_ m b) as [y |] eqn:Eb; [| reflexivity].
  apply at_Some_bound in Ea, Eb. lia.
Qed.

(** A list of mirror swaps acts on the buffer by [swaps_mem] and appends its
    accesses to the log; the only fault it can raise is [OutOfBounds]. *)
Lemma mirror_swaps_split (N2 : Z) (l : list (Z * Z)) (s : machine) :
  mirror_swaps N2 l s
  = match swaps_mem N2 l (mem s) with
    | Some m' => Done {| mem := m'; log := log s ++ accesses N2 l |}
    | None => OutOfBounds
    end.
Proof.
  revert s. induction l as [| [i j] l IH]; intros s; simpl.
  - rewrite app_nil_r. now destruct s.
  - unfold seq, swap, swap_mem.
    destruct (at_ (mem s) (i * N2 + j)) as [x |]; [| reflexivity].
    destruct (at_ (mem s) (j * N2 + i)) as [y |]; [| reflexivity].
    rewrite IH. simpl. now rewrite <- app_assoc.
Qed.

Lemma traces_final_mem (N2 : Z) (c : cmd) (l : list (Z * Z)) (s : machine) :
  traces N2 c l -> final_mem (c s) = swaps_mem N2 l (mem s).
Proof.
  intros Ht. rewrite Ht, mirror_swaps_split.
  now destruct (swaps_mem N2 l (mem s)).
Qed.

Lemma swaps_mem_perm (N2 : Z) (l : list (Z * Z)) (m m' : list Z) :
  swaps_mem N2 l m = Some m' -> m' ≡ₚ m.
Proof.
  revert m. induction l as [| [i j] l IH]; intros m; simpl.
  - now intros [= <-].
  - destruct (swap_mem _ _ m) as [m1 |] eqn:E; [| discriminate].
    intros H. rewrite (IH _ H). exact (swap_mem_perm _ _ _ _ E).
Qed.

Lemma swaps_mem_oob (N2 : Z) (l : list (Z * Z)) (i j : Z) (m : list Z) :
  In (i, j) l ->
  Z.of_nat (length m) <= i * N2 + j \/ Z.of_nat (length m) <= j * N2 + i ->
  swaps_mem N2 l m = None.
Proof.
  revert m. induction l as [| [a b] l IH]; intros m Hin Hlen; simpl.
  - destruct Hin.
  - destruct (swap_mem _ _ m) as [m1 |] eqn:E; [| reflexivity].
    destruct Hin as [[= -> ->] | Hin].
    + rewrite swap_mem_None in E by assumption. discriminate.
    + apply IH; [assumption |]. now rewrite (swap_mem_length _ _ _ _ E).
Qed.

Lemma flips_true_In (l : list (Z * Z)) (i j : Z) :
  flips l i j = true -> exists p, In p l /\ hits i j p = true.
Proof.
  induction l as [| p l IH]; simpl; [discriminate |].
  destruct (hits i j p) eqn:Hp.
  - intros _. exists p. auto.
  - simpl. intros H. destruct (IH H) as (q & Hq & Hh). exists q. auto.
Qed.

Lemma traces_timed (N2 : Z) (c : cmd) (l : list (Z * Z)) (k : nat) :
  traces N2 c l -> traces N2 (timed k c) (concat (replicate k l)).
Proof.
  intros Ht. induction k as [| k IH]; simpl.
  - apply traces_skip.
  - now apply traces_seq.
Qed.

Lemma in_range_timed (N N2 : Z) (c : cmd) (k : nat) :
  emits N2 c (Forall (in_range N)) -> emits N2 (timed k c) (Forall (in_range N)).
Proof.
  intros H. induction k as [| k IH]; simpl.
  - exists []. split; [apply traces_skip | constructor].
  - now apply in_range_seq.
Qed.

Section RunsAgain.

Variables (N N2 : Z) (c : cmd) (m : list Z).
Hypothesis HN : 1 <= N.
Hypothesis HN2 : N <= N2.
Hypothesis Hc : emits N2 c (Forall (in_range N)).
Hypothesis Hm : N2 * N <= Z.of_nat (length m).

Lemma emits_permutes : permutes c m.
Proof.
  assert (Hs : safe c m) by (apply (emits_safe N N2); assumption).
  destruct Hs as (s' & E & _).
  destruct Hc as (l & Ht & _).
  exists (mem s'). unfold run. rewrite E. split; [reflexivity |].
  pose proof (traces_final_mem N2 c l (boot m) Ht) as F.
  rewrite E in F. simpl in F. symmetry in F. exact (swaps_mem_perm _ _ _ _ F).
Qed.

Lemma emits_timed_parity (k : nat) :
  final_mem (timed k c (boot m)) = if Nat.even k then Some m else run c m.
Proof.
  assert (Hi : involutive c m) by (apply (emits_involutive N N2); assumption).
  destruct Hi as (m1 & E1 & E2).
  destruct Hc as (l & Ht & _).
  assert (R : forall x, run c x = swaps_mem N2 l x).
  { intros x. pose proof (traces_final_mem N2 c l (boot x) Ht) as F.
    simpl in F. rewrite <- F. reflexivity. }
  rewrite R in E1, E2. rewrite R, E1.
  assert (G : forall k s,
    (mem s = m -> final_mem (timed k c s) = if Nat.even k then Some m else Some m1) /\
    (mem s = m1 -> final_mem (timed k c s) = if Nat.even k then Some m1 else Some m)).
  { clear k. induction k as [| k IH]; intros s.
    - simpl. split; intros <-; reflexivity.
    - change (timed (S k) c s) with ((c ;; timed k c) s). unfold seq.
      pose proof (traces_final_mem N2 c l s Ht) as F.
      rewrite Nat.even_succ, <- Nat.negb_even.
      split; intros Hs; rewrite Hs in F.
      + rewrite E1 in F. destruct (c s) as [s1 | |]; try discriminate.
        injection F as F. destruct (IH s1) as [_ IH2]. rewrite (IH2 F).
        now destruct (Nat.even k).
      + rewrite E2 in F. destruct (c s) as [s1 | |]; try discriminate.
        injection F as F. destruct (IH s1) as [IH1 _]. rewrite (IH1 F).
        now destruct (Nat.even k). }
  exact (proj1 (G k (boot m)) eq_refl).
Qed.

End RunsAgain.

(** X4. For every [N >= 1], stride [N2 >= N] and positive tile widths, with
    [N2 * N], [N * N], [N + B] and [N + B2] inside a 32-bit [int], each of
    the four kernels ends without a fault and leaves a rearrangement of the
    cells it was given: no value is lost, duplicated or invented, also where
    the kernel is not a full transpose. *)
Theorem kernels_permute (N N2 B B2 : Z) (m mr : list Z) :
  1 <= N -> N <= N2 -> N2 * N <= 2147483647 -> N * N <= 2147483647 ->
  0 < B -> 0 < B2 -> N + B <= 2147483647 -> N + B2 <= 2147483647 ->
  N2 * N <= Z.of_nat (length m) -> N * N <= Z.of_nat (length mr) ->
  permutes (Transpose_Row N N2) m /\
  permutes (Transpose_Block N N2 B) m /\
  permutes (Transpose_Block2 N N2 B B2) m /\
  permutes (BM_Transpose_Rec N) mr.
Proof.
  intros HN HN2 _ _ HB HB2 _ _ Hm Hmr.
  split; [| split; [| split]].
  - apply (emits_permutes N N2); auto using Transpose_Row_in_range.
  - apply (emits_permutes N N2); auto using Transpose_Block_in_range.
  - apply (emits_permutes N N2); auto using Transpose_Block2_in_range.
  - apply (emits_permutes N N); auto; [lia |].
    apply transpose_rec_in_range; lia.
Qed.

Lemma kernels_permute_witness :
  (1 <= 5 /\ 5 <= pad 5 /\ pad 5 * 5 <= 2147483647 /\ 5 * 5 <= 2147483647 /\
   0 < 2 /\ 0 < 4 /\ 5 + 2 <= 2147483647 /\ 5 + 4 <= 2147483647 /\
   pad 5 * 5 <= Z.of_nat (length (iota 235)) /\
   5 * 5 <= Z.of_nat (length (iota 25))) /\
  (permutes (Transpose_Row 5 (pad 5)) (iota 235) /\
   permutes (Transpose_Block 5 (pad 5) 2) (iota 235) /\
   permutes (Transpose_Block2 5 (pad 5) 2 4) (iota 235) /\
   permutes (BM_Transpose_Rec 5) (iota 25)).
Proof.
  split; [vm_compute; intuition discriminate |].
  apply (kernels_permute 5 (pad 5) 2 4 (iota 235) (iota 25));
    vm_compute; intuition discriminate.
Defined.

(** X5. The timed loop runs the kernel on the same buffer over and over.
    After an even number of iterations the buffer is back to what it was,
    after an odd number it is what one run makes of it; no iteration
    faults.  As before [N2 * N], [N * N], [N + B] and [N + B2] are at most
    2147483647. *)
Theorem timed_loop_parity (N N2 B B2 : Z) (m mr : list Z) (iters : nat) :
  1 <= N -> N <= N2 -> N2 * N <= 2147483647 -> N * N <= 2147483647 ->
  0 < B -> 0 < B2 -> N + B <= 2147483647 -> N + B2 <= 2147483647 ->
  N2 * N <= Z.of_nat (length m) -> N * N <= Z.of_nat (length mr) ->
  final_mem (timed iters (Transpose_Row N N2) (boot m))
  = (if Nat.even iters then Some m else run (Transpose_Row N N2) m) /\
  final_mem (timed iters (Transpose_Block N N2 B) (boot m))
  = (if Nat.even iters then Some m else run (Transpose_Block N N2 B) m) /\
  final_mem (timed iters (Transpose_Block2 N N2 B B2) (boot m))
  = (if Nat.even iters then Some m else run (Transpose_Block2 N N2 B B2) m) /\
  final_mem (timed iters (BM_Transpose_Rec N) (boot mr))
  = (if Nat.even iters then Some mr else run (BM_Transpose_Rec N) mr).
Proof.
  intros HN HN2 _ _ HB HB2 _ _ Hm Hmr.
  split; [| split; [| split]].
  - apply (emits_timed_parity N N2); auto using Transpose_Row_in_range.
  - apply (emits_timed_parity N N2); auto using Transpose_Block_in_range.
  - apply (emits_timed_parity N N2); auto using Transpose_Block2_in_range.
  - apply (emits_timed_parity N N); auto; [lia |].
    apply transpose_rec_in_range; lia.
Qed.

Lemma timed_loop_parity_witness :
  (1 <= 5 /\ 5 <= pad 5 /\ pad 5 * 5 <= 2147483647 /\ 5 * 5 <= 2147483647 /\
   0 < 2 /\ 0 < 4 /\ 5 + 2 <= 2147483647 /\ 5 + 4 <= 2147483647 /\
   pad 5 * 5 <= Z.of_nat (length (iota 235)) /\
   5 * 5 <= Z.of_nat (length (iota 25))) /\
  (final_mem (timed 3 (Transpose_Row 5 (pad 5)) (boot (iota 235)))
   = (if Nat.even 3 then Some (iota 235) else run (Transpose_Row 5 (pad 5)) (iota 235)) /\
   final_mem (timed 3 (Transpose_Block 5 (pad 5) 2) (boot (iota 235)))
   = (if Nat.even 3 then Some (iota 235)
      else run (Transpose_Block 5 (pad 5) 2) (iota 235)) /\
   final_mem (timed 3 (Transpose_Block2 5 (pad 5) 2 4) (boot (iota 235)))
   = (if Nat.even 3 then Some (iota 235)
      else run (Transpose_Block2 5 (pad 5) 2 4) (iota 235)) /\
   final_mem (timed 3 (BM_Transpose_Rec 5) (boot (iota 25)))
   = (if Nat.even 3 then Some (iota 25) else run (BM_Transpose_Rec 5) (iota 25))).
Proof.
  split; [vm_compute; intuition discriminate |].
  apply (timed_loop_parity 5 (pad 5) 2 4 (iota 235) (iota 25) 3);
    vm_compute; intuition discriminate.
Defined.

Lemma vi_ones_length (size : Z) :
  0 <= size -> Z.of_nat (length (vi_ones size)) = size.
Proof. intros H. unfold vi_ones. rewrite length_replicate. lia. Qed.

Lemma ones_stay_ones (N N2 : Z) (c : cmd) (size : Z) (iters : nat) :
  1 <= N -> N <= N2 -> N2 * N <= size ->
  emits N2 c (Forall (in_range N)) ->
  final_mem (timed iters c (boot (vi_ones size))) = Some (vi_ones size).
Proof.
  intros HN HN2 Hs Hc.
  assert (Hp : permutes (timed iters c) (vi_ones size)).
  { apply (emits_permutes N N2); auto using in_range_timed.
    rewrite vi_ones_length; nia. }
  destruct Hp as (m' & E & P). unfold run in E.
  change (final_mem (timed iters c (boot (vi_ones size))) = Some m') in E.
  rewrite E. f_equal. symmetry. apply replicate_Permutation. now symmetry.
Qed.

(** X6. The benchmark functions as the source runs them: for every [N >= 1]
    whose buffer size [pad N * N] fits a 32-bit [int], and every number of
    timed iterations, each of the four allocates its buffer of ones, never
    leaves it, and ends with a buffer of ones. *)
Theorem benchmarks_run_clean (N : Z) (iters : nat) :
  1 <= N -> pad N * N <= 2147483647 ->
  final_mem (BM_Transpose_Row_state N iters) = Some (vi_ones (pad N * N)) /\
  final_mem (BM_Transpose_Block_state N iters) = Some (vi_ones (pad N * N)) /\
  final_mem (BM_Transpose_Block2_state N iters) = Some (vi_ones (pad N * N)) /\
  final_mem (BM_Transpose_Rec_state N iters) = Some (vi_ones (N * N)).
Proof.
  intros HN _. pose proof (pad_ge N ltac:(lia)) as HN2.
  split; [| split; [| split]].
  - apply (ones_stay_ones N (pad N)); auto; [lia |]. apply Transpose_Row_in_range.
  - apply (ones_stay_ones N (pad N)); auto; [lia |].
    apply Transpose_Block_in_range. lia.
  - apply (ones_stay_ones N (pad N)); auto; [lia |].
    apply Transpose_Block2_in_range; lia.
  - apply (ones_stay_ones N N); auto; [lia | lia |].
    apply transpose_rec_in_range; lia.
Qed.

Lemma benchmarks_run_clean_witness :
  (1 <= 1000 /\ pad 1000 * 1000 <= 2147483647) /\
  (final_mem (BM_Transpose_Row_state 1000 2) = Some (vi_ones (pad 1000 * 1000)) /\
   final_mem (BM_Transpose_Block_state 1000 2) = Some (vi_ones (pad 1000 * 1000)) /\
   final_mem (BM_Transpose_Block2_state 1000 2) = Some (vi_ones (pad 1000 * 1000)) /\
   final_mem (BM_Transpose_Rec_state 1000 2) = Some (vi_ones (1000 * 1000))).
Proof.
  split; [vm_compute; intuition discriminate |].
  apply (benchmarks_run_clean 1000 2); vm_compute; intuition discriminate.
Defined.

(** ** Edge and fault behaviour *)

Lemma for_skip {St : Type} (fuel : nat) (st : St) (cond : St -> bool)
    (next : St -> St) (body : St -> cmd) :
  cond st = false -> for_ fuel st cond next body = skip.
Proof. intros H. destruct fuel; simpl; now rewrite H. Qed.

(** X7. For [N <= 1] (zero and negative dimensions included) no kernel touches
    the buffer at all: whatever the buffer, even an empty one, the run ends
    with the same buffer and an empty access log. *)
Theorem nothing_to_do (N : Z) (m : list Z) :
  N <= 1 ->
  BM_Transpose_Row N (boot m) = Done (boot m) /\
  BM_Transpose_Block N (boot m) = Done (boot m) /\
  BM_Transpose_Block2 N (boot m) = Done (boot m) /\
  BM_Transpose_Rec N (boot m) = Done (boot m).
Proof.
  intros HN. destruct (Z.eq_dec N 1) as [-> | Hne].
  - repeat split; reflexivity.
  - assert (H0 : (0 <? N) = false) by (apply Z.ltb_ge; lia).
    unfold BM_Transpose_Row, BM_Transpose_Block, BM_Transpose_Block2,
      BM_Transpose_Rec, Transpose_Row, Transpose_Block, Transpose_Block2.
    rewrite !for_skip by exact H0.
    repeat split; try reflexivity.
    rewrite transpose_rec_equation_1.
    destruct (Z_le_gt_dec N 4); [| lia]. simpl.
    rewrite for_skip; [reflexivity |]. now rewrite H0, andb_false_r.
Qed.

Lemma nothing_to_do_witness :
  1 <= 1 /\
  (BM_Transpose_Row 1 (boot []) = Done (boot []) /\
   BM_Transpose_Block 1 (boot []) = Done (boot []) /\
   BM_Transpose_Block2 1 (boot []) = Done (boot []) /\
   BM_Transpose_Rec 1 (boot []) = Done (boot [])).
Proof.
  split; [lia |]. apply (nothing_to_do 1 []). lia.
Defined.

(** X8. The bound on the buffer is needed: for [N >= 2], a buffer that ends at
    or before the cell [(N-1, N-2)] of the last row makes the row-by-row
    kernel fault with an out-of-bounds access. *)
Theorem Transpose_Row_short_buffer (N N2 : Z) (m : list Z) :
  2 <= N -> 0 <= N2 ->
  Z.of_nat (length m) <= (N - 1) * N2 + (N - 2) ->
  Transpose_Row N N2 (boot m) = OutOfBounds.
Proof.
  intros HN HN2 Hm.
  destruct (Transpose_Row_trace N N2 ltac:(lia)) as (l & Ht & Hl & Hlt & _ & Hfl).
  rewrite Ht, mirror_swaps_split. simpl.
  destruct (flips_true_In l (N - 2) (N - 1)) as ([a b] & Hin & Hh).
  { apply Hfl; lia. }
  rewrite List.Forall_forall in Hlt. pose proof (Hlt _ Hin) as Hab.
  unfold hits in Hh. simpl in Hh, Hab.
  assert (a = N - 2 /\ b = N - 1) as [-> ->] by (zbool; simpl in Hh; try discriminate; lia).
  rewrite (swaps_mem_oob N2 l (N - 2) (N - 1) m Hin); [reflexivity | right; lia].
Qed.

Lemma Transpose_Row_short_buffer_witness :
  (2 <= 3 /\ 0 <= 3 /\ Z.of_nat (length (iota 7)) <= (3 - 1) * 3 + (3 - 2)) /\
  Transpose_Row 3 3 (boot (iota 7)) = OutOfBounds.
Proof.
  split; [vm_compute; intuition discriminate |].
  apply (Transpose_Row_short_buffer 3 3 (iota 7)); vm_compute; intuition discriminate.
Defined.

(** ** Exact traces: which pairs each kernel exchanges *)

(** Decides equalities between boolean combinations of comparisons, pruning
    the case splits that contradict the hypotheses. *)
Ltac zb :=
  repeat match goal with
  | |- context [?a =? ?b] => destruct (Z.eqb_spec a b); try (exfalso; lia)
  | |- context [?a <? ?b] => destruct (Z.ltb_spec a b); try (exfalso; lia)
  | |- context [?a <=? ?b] => destruct (Z.leb_spec a b); try (exfalso; lia)
  end; simpl; solve [reflexivity | lia].

Lemma flips_as_ext (N : Z) (f g : Z -> Z -> bool) (l : list (Z * Z)) :
  flips_as N f l ->
  (forall a b, 0 <= a -> a < b -> b < N -> f a b = g a b) ->
  flips_as N g l.
Proof.
  intros [Hr Hf] Hfg. split; [exact Hr |].
  intros a b Ha Hab Hb. rewrite Hf by assumption. now apply Hfg.
Qed.

Lemma flips_as_app (N : Z) (f g : Z -> Z -> bool) (l1 l2 : list (Z * Z)) :
  flips_as N f l1 -> flips_as N g l2 ->
  flips_as N (fun a b => xorb (f a b) (g a b)) (l1 ++ l2).
Proof.
  intros [Hr1 Hf1] [Hr2 Hf2]. split; [now apply Forall_app |].
  intros a b Ha Hab Hb. now rewrite flips_app, Hf1, Hf2.
Qed.

Section FlipRules.

Variables N N2 : Z.

Lemma flips_swap (i j : Z) :
  0 <= i < N -> 0 <= j < N ->
  emits N2 (swap (i * N2 + j) (j * N2 + i))
    (flips_as N (fun a b => ((a =? i) && (b =? j)) || ((a =? j) && (b =? i)))).
Proof.
  intros Hi Hj. apply emits_swap. split.
  - constructor; [now split | constructor].
  - intros a b Ha Hab Hb. simpl. unfold hits. simpl. zb.
Qed.

Lemma flips_seq (c1 c2 : cmd) (f g : Z -> Z -> bool) :
  emits N2 c1 (flips_as N f) -> emits N2 c2 (flips_as N g) ->
  emits N2 (c1 ;; c2) (flips_as N (fun a b => xorb (f a b) (g a b))).
Proof.
  intros H1 H2. eapply emits_seq; [exact H1 |]. intros l1 Hl1.
  eapply emits_weaken; [exact H2 |]. intros l2 Hl2. now apply flips_as_app.
Qed.

Lemma flips_weaken (c : cmd) (f g : Z -> Z -> bool) :
  emits N2 c (flips_as N f) ->
  (forall a b, 0 <= a -> a < b -> b < N -> f a b = g a b) ->
  emits N2 c (flips_as N g).
Proof.
  intros H Hfg. eapply emits_weaken; [exact H |].
  intros l Hl. now apply (flips_as_ext N f).
Qed.

(** The loop rule for flips: [F i] describes the pairs exchanged by the
    iterations before the counter reached [i], [P] is what the counter
    satisfies throughout. *)
Lemma flips_for_Z (F : Z -> Z -> Z -> bool) (P : Z -> Prop) (hi step : Z)
    (cond : Z -> bool) (body : Z -> cmd) :
  0 < step ->
  (forall i, P i -> cond i = true ->
     i < hi /\ P (i + step) /\
     exists G, emits N2 (body i) (flips_as N G) /\
       forall a b, 0 <= a -> a < b -> b < N ->
         xorb (F i a b) (G a b) = F (i + step) a b) ->
  forall fuel lo, P lo ->
  (forall a b, 0 <= a -> a < b -> b < N -> F lo a b = false) ->
  (Z.to_nat (hi - lo) <= fuel)%nat ->
  emits N2 (for_ fuel lo cond (fun i => i + step) body)
    (fun l => exists i, P i /\ cond i = false /\ flips_as N (F i) l).
Proof.
  intros Hstep Hbody fuel lo Hlo HF Hfuel.
  eapply emits_weaken.
  - apply (emits_for_Z N2 (fun i l => P i /\ flips_as N (F i) l) hi step)
      with (l0 := []); [exact Hstep | | | exact Hfuel].
    + intros i l [HP Hl] Hc. destruct (Hbody i HP Hc) as (Hlt & HP' & G & HG & HFG).
      split; [exact Hlt |]. eapply emits_weaken; [exact HG |].
      intros lb Hlb. split; [exact HP' |].
      apply (flips_as_ext N (fun a b => xorb (F i a b) (G a b))); [| exact HFG].
      now apply flips_as_app.
    + split; [exact Hlo |]. split; [constructor |].
      intros a b Ha Hab Hb. simpl. symmetry. now apply HF.
  - intros l (i & [HP Hl] & Hc). exists i. auto.
Qed.

End FlipRules.

(** The innermost two loops on a pair of distinct tiles [k < l]: every cell of
    the tile pair is exchanged once. *)
Lemma pair_tile_flips (N N2 B k l : Z) :
  0 < B -> 0 <= k -> k + B <= l ->
  emits N2
    (for_ (Z.to_nat N) k (fun i => (i <? k + B) && (i <? N)) (fun i => i + 1) (fun i =>
       for_ (Z.to_nat N) l (fun j => (j <? l + B) && (j <? N)) (fun j => j + 1) (fun j =>
         swap (i * N2 + j) (j * N2 + i))))
    (flips_as N (fun a b => (k <=? a) && (a <? k + B) && (l <=? b) && (b <? l + B))).
Proof.
  intros HB Hk Hl.
  eapply emits_weaken.
  - apply (flips_for_Z N N2
      (fun i a b => (k <=? a) && (a <? i) && (l <=? b) && (b <? l + B))
      (fun i => k <= i <= k + B) N 1); [lia | | lia | intros; zb | lia].
    intros i Hi Hc. cond_true Hc. split; [lia |]. split; [lia |].
    exists (fun a b => (a =? i) && (l <=? b) && (b <? l + B)). split.
    + eapply emits_weaken.
      * apply (flips_for_Z N N2
          (fun j a b => (a =? i) && (l <=? b) && (b <? j))
          (fun j => l <= j <= l + B) N 1); [lia | | lia | intros; zb | lia].
        intros j Hj Hcj. cond_true Hcj. split; [lia |]. split; [lia |].
        eexists. split; [apply flips_swap; lia |].
        intros a b Ha Hab Hb. cbv beta. zb.
      * intros t (j & Hj & Hcj & Ht). cbv beta in Hcj.
        apply (flips_as_ext N _ _ _ Ht). intros a b Ha Hab Hb.
        apply andb_false_iff in Hcj. rewrite !Z.ltb_ge in Hcj. zb.
    + intros a b Ha Hab Hb. zb.
  - intros t (i & Hi & Hci & Ht). cbv beta in Hci.
    apply (flips_as_ext N _ _ _ Ht). intros a b Ha Hab Hb.
    apply andb_false_iff in Hci. rewrite !Z.ltb_ge in Hci. zb.
Qed.

(** ** The tiled kernels *)

Lemma tile_start_in (B K q a : Z) :
  0 < B -> K = B * q -> K <= a < K + B -> tile_start B a = K.
Proof.
  intros HB HK Ha. unfold tile_start.
  rewrite <- (Z.mod_unique_pos a B q (a - K)); lia.
Qed.

Lemma tile_start_far (B M r a : Z) :
  0 < B -> M = B * r -> a < M -> tile_start B a + B <= M.
Proof.
  intros HB HM Ha. unfold tile_start.
  pose proof (Z.div_mod a B ltac:(lia)) as E.
  assert (a / B < r) by (apply Z.div_lt_upper_bound; lia).
  replace (a - a mod B) with (B * (a / B)) by lia. nia.
Qed.

(** The two loops on the diagonal tile at [k]: only the pairs [(k, b)] of the
    first row of the tile end up exchanged; a pair inside the tile and off its
    first row is exchanged twice. *)
Lemma diag_tile_flips (N N2 B k : Z) :
  0 < B -> 0 <= k < N ->
  emits N2
    (for_ (Z.to_nat N) k (fun i => (i <? k + B) && (i <? N)) (fun i => i + 1) (fun i =>
       for_ (Z.to_nat N) (k + 1) (fun j => (j <? k + B) && (j <? N)) (fun j => j + 1) (fun j =>
         swap (i * N2 + j) (j * N2 + i))))
    (flips_as N (fun a b => (a =? k) && (b <? k + B))).
Proof.
  intros HB Hk.
  eapply emits_weaken.
  - apply (flips_for_Z N N2
      (fun i a b => xorb ((k <=? a) && (a <? i) && (k <? b) && (b <? k + B))
                         ((k <=? b) && (b <? i) && (k <? a)))
      (fun i => k <= i <= k + B) N 1); [lia | | lia | intros; zb | lia].
    intros i Hi Hc. cond_true Hc. split; [lia |]. split; [lia |].
    exists (fun a b => xorb ((a =? i) && (k <? b) && (b <? k + B))
                            ((b =? i) && (k <? a))). split.
    + eapply emits_weaken.
      * apply (flips_for_Z N N2
          (fun j a b => xorb ((a =? i) && (k <? b) && (b <? j))
                             ((b =? i) && (k <? a) && (a <? j)))
          (fun j => k + 1 <= j <= k + B) N 1); [lia | | lia | intros; zb | lia].
        intros j Hj Hcj. cond_true Hcj. split; [lia |]. split; [lia |].
        eexists. split; [apply flips_swap; lia |].
        intros a b Ha Hab Hb. cbv beta. zb.
      * intros t (j & Hj & Hcj & Ht). cbv beta in Hcj.
        apply (flips_as_ext N _ _ _ Ht). intros a b Ha Hab Hb.
        apply andb_false_iff in Hcj. rewrite !Z.ltb_ge in Hcj. zb.
    + intros a b Ha Hab Hb. zb.
  - intros t (i & Hi & Hci & Ht). cbv beta in Hci.
    apply (flips_as_ext N _ _ _ Ht). intros a b Ha Hab Hb.
    apply andb_false_iff in Hci. rewrite !Z.ltb_ge in Hci. zb.
Qed.

(** The off-diagonal tiles to the right of the diagonal tile at [k], up to
    the bound [H] of the loop over [l]. *)
Lemma tile_row_flips (N N2 B k H : Z) (condl : Z -> bool) :
  0 < B -> 0 <= k ->
  (forall l, condl l = (l <? H) && (l <? N)) ->
  (exists q, 0 <= q /\ H = k + B + B * q) \/ N <= H ->
  emits N2
    (for_ (Z.to_nat N) (k + B) condl (fun l => l + B) (fun l =>
       for_ (Z.to_nat N) k (fun i => (i <? k + B) && (i <? N)) (fun i => i + 1) (fun i =>
         for_ (Z.to_nat N) l (fun j => (j <? l + B) && (j <? N)) (fun j => j + 1) (fun j =>
           swap (i * N2 + j) (j * N2 + i)))))
    (flips_as N (fun a b => (k <=? a) && (a <? k + B) && (k + B <=? b) && (b <? H))).
Proof.
  intros HB Hk Hcond Hal.
  eapply emits_weaken.
  - apply (flips_for_Z N N2
      (fun L a b => (k <=? a) && (a <? k + B) && (k + B <=? b) && (b <? L))
      (fun L => k + B <= L /\ ((exists q, 0 <= q /\ H = L + B * q) \/ N <= H))
      N B); [lia | | split; [lia | exact Hal] | intros; zb | lia].
    intros L [HL HP] Hc. rewrite Hcond in Hc. cond_true Hc.
    split; [lia |]. split.
    { split; [lia |]. destruct HP as [(q & Hq & E) | ?]; [left | now right].
      exists (q - 1). split; nia. }
    eexists. split; [apply pair_tile_flips; lia |].
    intros a b Ha Hab Hb. cbv beta. zb.
  - intros t (L & [HL HP] & Hc & Ht). rewrite Hcond in Hc.
    apply (flips_as_ext N _ _ _ Ht). intros a b Ha Hab Hb.
    apply andb_false_iff in Hc. rewrite !Z.ltb_ge in Hc.
    assert (L <= H \/ N <= H) as HLH by (destruct HP as [(q & Hq & E) | ?]; [left; nia | now right]).
    clear HP. zb.
Qed.

(** The loop over the tile rows [k] of the region that starts at [x] and is
    bounded by [H]: the loop nest of the block kernel, shared by the outer
    diagonal tiles of the two-level kernel. *)
Lemma region_flips (N N2 B x H : Z) (condk condl : Z -> bool) :
  0 < B -> 0 <= x -> (exists q, x = B * q) ->
  (forall k, condk k = (k <? H) && (k <? N)) ->
  (forall l, condl l = (l <? H) && (l <? N)) ->
  (exists q, 0 <= q /\ H = x + B * q) \/ N <= H ->
  emits N2
    (for_ (Z.to_nat N) x condk (fun k => k + B) (fun k =>
       for_ (Z.to_nat N) k (fun i => (i <? k + B) && (i <? N)) (fun i => i + 1) (fun i =>
         for_ (Z.to_nat N) (k + 1) (fun j => (j <? k + B) && (j <? N)) (fun j => j + 1) (fun j =>
           swap (i * N2 + j) (j * N2 + i))) ;;
       for_ (Z.to_nat N) (k + B) condl (fun l => l + B) (fun l =>
         for_ (Z.to_nat N) k (fun i => (i <? k + B) && (i <? N)) (fun i => i + 1) (fun i =>
           for_ (Z.to_nat N) l (fun j => (j <? l + B) && (j <? N)) (fun j => j + 1) (fun j =>
             swap (i * N2 + j) (j * N2 + i))))))
    (flips_as N (fun a b => (x <=? a) && (b <? H) && tile_rule B a b)).
Proof.
  intros HB Hx Hx0 Hck Hcl Hal.
  eapply emits_weaken.
  - apply (flips_for_Z N N2
      (fun K a b => (x <=? a) && (a <? K) && (b <? H) && tile_rule B a b)
      (fun K => x <= K /\ (exists q, K = B * q) /\
                ((exists q, 0 <= q /\ H = K + B * q) \/ N <= H))
      N B); [lia | | split; [lia | split; assumption] | intros; zb | lia].
    intros K (HK & (q & HKq) & HP) Hc. rewrite Hck in Hc. cond_true Hc.
    assert (HP' : (exists q, 0 <= q /\ H = K + B + B * q) \/ N <= H).
    { destruct HP as [(r & Hr & E) | ?]; [left | now right].
      exists (r - 1). split; nia. }
    split; [lia |]. split.
    { split; [lia |]. split; [exists (q + 1); lia |].
      destruct HP' as [(r & Hr & E) | ?]; [left | now right]. exists r. split; lia. }
    eexists. split.
    { apply flips_seq; [apply diag_tile_flips; lia | apply tile_row_flips; auto; lia]. }
    intros a b Ha Hab Hb. cbv beta.
    assert (HKH : K + B <= H \/ N <= H)
      by (destruct HP' as [(r & Hr & E) | ?]; [left; nia | now right]).
    destruct (Z_lt_dec a K); [| destruct (Z_lt_dec a (K + B))].
    + destruct (tile_rule B a b); zb.
    + unfold tile_rule. rewrite (tile_start_in B K q a) by lia. zb.
    + destruct (tile_rule B a b); zb.
  - intros t (K & (HK & _ & HP) & Hc & Ht). rewrite Hck in Hc.
    apply (flips_as_ext N _ _ _ Ht). intros a b Ha Hab Hb.
    apply andb_false_iff in Hc. rewrite !Z.ltb_ge in Hc.
    destruct (tile_rule B a b); zb.
Qed.

Lemma Transpose_Block_flips (N N2 B : Z) :
  0 < B -> emits N2 (Transpose_Block N N2 B) (flips_as N (tile_rule B)).
Proof.
  intros HB. unfold Transpose_Block.
  eapply flips_weaken.
  - apply (region_flips N N2 B 0 N); [lia | lia | exists 0; lia | | | now right];
      intros k; zb.
  - intros a b Ha Hab Hb. cbv beta. destruct (tile_rule B a b); zb.
Qed.

(** The loops over the inner tiles of two distinct outer tiles [x < y]. *)
Lemma cross_tiles_flips (N N2 B B2 x y : Z) (c : Z) :
  0 < B -> 0 < c -> B2 = B * c -> 0 <= x -> x + B2 <= y ->
  emits N2
    (for_ (Z.to_nat N) x (fun k => (k <? x + B2) && (k <? N)) (fun k => k + B) (fun k =>
       for_ (Z.to_nat N) y (fun l => (l <? y + B2) && (l <? N)) (fun l => l + B) (fun l =>
         for_ (Z.to_nat N) k (fun i => (i <? k + B) && (i <? N)) (fun i => i + 1) (fun i =>
           for_ (Z.to_nat N) l (fun j => (j <? l + B) && (j <? N)) (fun j => j + 1) (fun j =>
             swap (i * N2 + j) (j * N2 + i))))))
    (flips_as N (fun a b => (x <=? a) && (a <? x + B2) && (y <=? b) && (b <? y + B2))).
Proof.
  intros HB Hc HB2 Hx Hy.
  eapply emits_weaken.
  - apply (flips_for_Z N N2
      (fun K a b => (x <=? a) && (a <? K) && (y <=? b) && (b <? y + B2))
      (fun K => x <= K /\ exists q, 0 <= q /\ x + B2 = K + B * q)
      N B); [lia | | split; [lia | exists c; split; lia] | intros; zb | lia].
    intros K (HK & q & Hq & E) Hck. cond_true Hck.
    assert (1 <= q) by nia.
    split; [lia |]. split; [split; [lia | exists (q - 1); split; lia] |].
    exists (fun a b => (K <=? a) && (a <? K + B) && (y <=? b) && (b <? y + B2)). split.
    + eapply emits_weaken.
      * apply (flips_for_Z N N2
          (fun L a b => (K <=? a) && (a <? K + B) && (y <=? b) && (b <? L))
          (fun L => y <= L /\ exists r, 0 <= r /\ y + B2 = L + B * r)
          N B); [lia | | split; [lia | exists c; split; lia] | intros; zb | lia].
        intros L (HL & r & Hr & E') Hcl. cond_true Hcl.
        assert (1 <= r) by nia.
        split; [lia |]. split; [split; [lia | exists (r - 1); split; lia] |].
        eexists. split; [apply pair_tile_flips; nia |].
        intros a b Ha Hab Hb. cbv beta. zb.
      * intros t (L & (HL & r & Hr & E') & Hcl & Ht). cbv beta in Hcl.
        apply (flips_as_ext N _ _ _ Ht). intros a b Ha Hab Hb.
        apply andb_false_iff in Hcl. rewrite !Z.ltb_ge in Hcl.
        assert (L <= y + B2) by nia. zb.
    + intros a b Ha Hab Hb. assert (K + B <= x + B2) by nia. zb.
  - intros t (K & (HK & q & Hq & E) & Hck & Ht). cbv beta in Hck.
    apply (flips_as_ext N _ _ _ Ht). intros a b Ha Hab Hb.
    apply andb_false_iff in Hck. rewrite !Z.ltb_ge in Hck.
    assert (K <= x + B2) by nia. zb.
Qed.

Lemma Transpose_Block2_flips (N N2 B B2 c : Z) :
  0 < B -> 0 < c -> B2 = B * c ->
  emits N2 (Transpose_Block2 N N2 B B2) (flips_as N (tile_rule B)).
Proof.
  intros HB Hc HB2. unfold Transpose_Block2.
  assert (0 < B2) by nia.
  eapply emits_weaken.
  - apply (flips_for_Z N N2
      (fun X a b => (a <? X) && tile_rule B a b)
      (fun X => 0 <= X /\ exists q, X = B2 * q)
      N B2); [lia | | split; [lia | exists 0; lia] | intros; zb | lia].
    intros X (HX & q & Hq) Hcx. cond_true Hcx.
    split; [lia |]. split; [split; [lia | exists (q + 1); lia] |].
    eexists. split.
    + apply flips_seq.
      * apply (region_flips N N2 B X (X + B2));
          [lia | lia | exists (c * q); nia | reflexivity | reflexivity |].
        left. exists c. split; lia.
      * eapply emits_weaken.
        -- apply (flips_for_Z N N2
             (fun Y a b => (X <=? a) && (a <? X + B2) && (X + B2 <=? b) && (b <? Y))
             (fun Y => X + B2 <= Y) N B2); [lia | | lia | intros; zb | lia].
           intros Y HY Hcy. cond_true Hcy. split; [lia |]. split; [lia |].
           eexists. split; [apply (cross_tiles_flips N N2 B B2 X Y c); lia |].
           intros a b Ha Hab Hb. cbv beta. zb.
        -- intros t (Y & HY & Hcy & Ht). cbv beta in Hcy. apply Z.ltb_ge in Hcy.
           apply (flips_as_ext N _ (fun a b => (X <=? a) && (a <? X + B2) && (X + B2 <=? b)) _ Ht).
           intros a b Ha Hab Hb. zb.
    + intros a b Ha Hab Hb. cbv beta.
      destruct (Z_lt_dec a X); [| destruct (Z_lt_dec a (X + B2))].
      * destruct (tile_rule B a b); zb.
      * destruct (Z_lt_dec b (X + B2)).
        -- destruct (tile_rule B a b); zb.
        -- assert (tile_rule B a b = true) as ->.
           { unfold tile_rule. apply orb_true_iff. left. apply Z.leb_le.
             pose proof (tile_start_far B (X + B2) (c * q + c) a HB ltac:(nia) ltac:(lia)).
             lia. }
           zb.
      * destruct (tile_rule B a b); zb.
  - intros t (X & (HX & _) & Hcx & Ht). cbv beta in Hcx. apply Z.ltb_ge in Hcx.
    apply (flips_as_ext N _ _ _ Ht). intros a b Ha Hab Hb.
    destruct (tile_rule B a b); zb.
Qed.

Section FlipRulesGeneral.

Variables N N2 : Z.

Lemma flips_for {St : Type} (F : St -> Z -> Z -> bool) (P : St -> Prop)
    (mu : St -> nat) (cond : St -> bool) (next : St -> St) (body : St -> cmd) :
  (forall st, P st -> cond st = true ->
     (mu (next st) < mu st)%nat /\ P (next st) /\
     exists G, emits N2 (body st) (flips_as N G) /\
       forall a b, 0 <= a -> a < b -> b < N ->
         xorb (F st a b) (G a b) = F (next st) a b) ->
  forall fuel st0, P st0 ->
  (forall a b, 0 <= a -> a < b -> b < N -> F st0 a b = false) ->
  (mu st0 <= fuel)%nat ->
  emits N2 (for_ fuel st0 cond next body)
    (fun l => exists st, P st /\ cond st = false /\ flips_as N (F st) l).
Proof.
  intros Hbody fuel st0 Hst0 HF Hfuel.
  eapply emits_weaken.
  - apply (emits_for N2 (fun st l => P st /\ flips_as N (F st) l) mu)
      with (l0 := []); [| | exact Hfuel].
    + intros st l [HP Hl] Hc.
      destruct (Hbody st HP Hc) as (Hlt & HP' & G & HG & HFG).
      split; [exact Hlt |]. eapply emits_weaken; [exact HG |].
      intros lb Hlb. split; [exact HP' |].
      apply (flips_as_ext N (fun a b => xorb (F st a b) (G a b))); [| exact HFG].
      now apply flips_as_app.
    + split; [exact Hst0 |]. split; [constructor |].
      intros a b Ha Hab Hb. simpl. symmetry. now apply HF.
  - intros l (st & [HP Hl] & Hc). exists st. auto.
Qed.

End FlipRulesGeneral.

(** ** The recursive kernel at and just above its threshold *)

Lemma rec_self_base (N n i0 : Z) :
  0 <= i0 -> 0 <= n <= 4 ->
  emits N (transpose_rec N n i0 i0 i0 i0)
    (flips_as N (fun a b => (i0 <=? a) && (b <? i0 + n))).
Proof.
  intros Hi0 Hn. rewrite transpose_rec_equation_1.
  destruct (Z_le_gt_dec n 4); [| lia]. simpl. rewrite Z.eqb_refl.
  eapply emits_weaken.
  - apply (flips_for_Z N N
      (fun i a b => (i0 <=? a) && (a <? i) && (b <? i0 + n))
      (fun i => i0 <= i <= i0 + n) (i0 + n) 1); [lia | | lia | intros; zb | lia].
    intros i Hi Hc. cond_true Hc. split; [lia |]. split; [lia |].
    exists (fun a b => (a =? i) && (b <? i0 + n)). split.
    + eapply emits_weaken.
      * apply (flips_for_Z N N
          (fun j a b => (a =? i) && (b <? j))
          (fun j => i + 1 <= j <= i0 + n) (i0 + n) 1); [lia | | lia | intros; zb | lia].
        intros j Hj Hcj. cond_true Hcj. split; [lia |]. split; [lia |].
        eexists. split; [apply flips_swap; lia |].
        intros a b Ha Hab Hb. cbv beta. zb.
      * intros t (j & Hj & Hcj & Ht). cbv beta in Hcj.
        apply (flips_as_ext N _ _ _ Ht). intros a b Ha Hab Hb.
        apply andb_false_iff in Hcj. rewrite !Z.ltb_ge in Hcj. zb.
    + intros a b Ha Hab Hb. zb.
  - intros t (i & Hi & Hci & Ht). cbv beta in Hci.
    apply (flips_as_ext N _ _ _ Ht). intros a b Ha Hab Hb.
    apply andb_false_iff in Hci. rewrite !Z.ltb_ge in Hci. zb.
Qed.

Lemma rec_cross_base (N n i0 j0 : Z) :
  0 <= j0 -> j0 + n <= i0 -> 1 <= n <= 4 ->
  emits N (transpose_rec N n i0 j0 j0 i0)
    (flips_as N (fun a b =>
       (j0 <=? a) && (a <? j0 + n) && (i0 <=? b) && (b <? i0 + n))).
Proof.
  intros Hj0 Hi0 Hn. rewrite transpose_rec_equation_1.
  destruct (Z_le_gt_dec n 4); [| lia]. simpl.
  destruct (Z.eqb_spec i0 j0); [lia |].
  eapply emits_weaken.
  - apply (flips_for N N
      (fun st a b => (j0 <=? a) && (a <? j0 + n) && (i0 <=? b) && (b <? st.1))
      (fun st => i0 <= st.1 <= i0 + n /\ st.2 = st.1)
      (fun st => Z.to_nat (i0 + n - st.1)));
      [| simpl; lia | intros; simpl; zb | simpl; lia].
    intros [i jj] [Hi Hjj] Hc. simpl in Hi, Hjj. subst jj. cond_true Hc. simpl.
    split; [lia |]. split; [lia |].
    exists (fun a b => (b =? i) && (j0 <=? a) && (a <? j0 + n)). split.
    + eapply emits_weaken.
      * apply (flips_for N N
          (fun st a b => (b =? i) && (j0 <=? a) && (a <? st.1))
          (fun st => j0 <= st.1 <= j0 + n /\ st.2 = st.1)
          (fun st => Z.to_nat (j0 + n - st.1)));
          [| simpl; lia | intros; simpl; zb | simpl; lia].
        intros [j ii] [Hj Hii] Hcj. simpl in Hj, Hii. subst ii. cond_true Hcj. simpl.
        split; [lia |]. split; [lia |].
        eexists. split; [apply flips_swap; lia |].
        intros a b Ha Hab Hb. cbv beta. zb.
      * intros t ([j ii] & [Hj Hii] & Hcj & Ht). simpl in *. subst ii.
        apply (flips_as_ext N _ _ _ Ht). intros a b Ha Hab Hb.
        rewrite !andb_false_iff, !Z.ltb_ge in Hcj. zb.
    + intros a b Ha Hab Hb. zb.
  - intros t ([i jj] & [Hi Hjj] & Hci & Ht). simpl in *. subst jj.
    apply (flips_as_ext N _ _ _ Ht). intros a b Ha Hab Hb.
    rewrite !andb_false_iff, !Z.ltb_ge in Hci. zb.
Qed.

Lemma rec_one_split (N n i0 : Z) :
  0 <= i0 -> 4 < n <= 8 -> n mod 2 = 0 ->
  emits N (transpose_rec N n i0 i0 i0 i0)
    (flips_as N (fun a b => (i0 <=? a) && (b <? i0 + n))).
Proof.
  intros Hi0 Hn Hev. rewrite transpose_rec_equation_1.
  destruct (Z_le_gt_dec n 4); [lia |]. simpl.
  assert (Hh : n ÷ 2 = n / 2) by (apply Z.quot_div_nonneg; lia).
  rewrite Hh.
  assert (E : n - n / 2 = n / 2) by (Z.to_euclidean_division_equations; lia).
  rewrite E. set (h := n / 2) in *.
  assert (2 < h <= 4) by (subst h; Z.to_euclidean_division_equations; lia).
  eapply flips_weaken.
  - apply flips_seq; [| apply flips_seq].
    + apply rec_self_base; lia.
    + apply rec_self_base; lia.
    + apply rec_cross_base; lia.
  - intros a b Ha Hab Hb. cbv beta. assert (n = h + h) by lia. zb.
Qed.

(** ** From exact traces to runs *)

Section Exact.

Variables (N N2 : Z) (m : list Z).
Hypothesis HN2 : N <= N2.
Hypothesis Hm : N2 * N <= Z.of_nat (length m).

Lemma flips_in_range (c : cmd) (f : Z -> Z -> bool) :
  emits N2 c (flips_as N f) -> emits N2 c (Forall (in_range N)).
Proof. intros H. eapply emits_weaken; [exact H |]. now intros l [Hl _]. Qed.

Lemma emits_rearranges (c : cmd) (f : Z -> Z -> bool) :
  emits N2 c (flips_as N f) -> rearranges N N2 f c m.
Proof.
  intros (l & Ht & Hl & Hf).
  destruct (mirror_swaps_sem N N2 l HN2 Hl (boot m) Hm) as (m' & E & L & Hcell & _).
  rewrite <- Ht in E. exists m'. unfold run. rewrite E.
  split; [reflexivity |]. split; [exact L |].
  intros i j Hi Hj. unfold elem, swapped_by. rewrite Hcell by assumption. simpl.
  destruct (Z.lt_trichotomy i j) as [Hlt | [-> | Hgt]].
  - rewrite Hf by lia. rewrite Z.min_l, Z.max_r by lia.
    destruct (Z.eqb_spec i j); [lia |]. simpl. now destruct (f i j).
  - rewrite Z.eqb_refl. simpl. now destruct (flips l j j).
  - rewrite flips_sym, Hf by lia. rewrite Z.min_r, Z.max_l by lia.
    destruct (Z.eqb_spec i j); [lia |]. simpl. now destruct (f j i).
Qed.

Lemma rearranges_transposes (c : cmd) (f : Z -> Z -> bool) :
  (forall a b, 0 <= a -> a < b -> b < N -> f a b = true) ->
  rearranges N N2 f c m -> transposes N N2 c m.
Proof.
  intros Hf (m' & E & L & Hcell). exists m'. split; [exact E |]. split; [exact L |].
  intros i j Hi Hj. split.
  - apply at_is_Some. pose proof (idx_bound N N2 j i HN2 Hj Hi). lia.
  - rewrite Hcell by assumption. unfold swapped_by.
    destruct (Z.eqb_spec i j) as [-> | Hne]; [reflexivity |].
    rewrite Hf by lia. reflexivity.
Qed.

Lemma same_flips_same_run (c1 c2 : cmd) (f : Z -> Z -> bool) :
  1 <= N ->
  emits N2 c1 (flips_as N f) -> emits N2 c2 (flips_as N f) ->
  run c1 m = run c2 m.
Proof.
  intros HN (l1 & Ht1 & Hl1 & Hf1) (l2 & Ht2 & Hl2 & Hf2).
  destruct (mirror_swaps_sem N N2 l1 HN2 Hl1 (boot m) Hm) as (m1 & E1 & L1 & C1 & R1).
  destruct (mirror_swaps_sem N N2 l2 HN2 Hl2 (boot m) Hm) as (m2 & E2 & L2 & C2 & R2).
  rewrite <- Ht1 in E1. rewrite <- Ht2 in E2. unfold run. rewrite E1, E2. simpl.
  f_equal. apply at_ext; [congruence |]. intros x Hx.
  destruct (idx_split N2 x ltac:(lia) Hx) as (r & k & Hr & Hk & ->).
  destruct (Z_lt_dec r N) as [Hr' |]; [destruct (Z_lt_dec k N) as [Hk' |] |].
  - rewrite C1, C2 by lia.
    destruct (Z.lt_trichotomy r k) as [Hlt | [-> | Hgt]].
    + now rewrite Hf1, Hf2 by lia.
    + destruct (flips l1 k k), (flips l2 k k); reflexivity.
    + now rewrite (flips_sym l1), (flips_sym l2), Hf1, Hf2 by lia.
  - rewrite R1, R2; [reflexivity | |]; apply (not_a_cell N N2); lia.
  - rewrite R1, R2; [reflexivity | |]; apply (not_a_cell N N2); lia.
Qed.

End Exact.

(** X9. What the block kernel does, for every [N >= 1], stride [N2 >= N] and
    tile width [B >= 1] inside a 32-bit [int] ([N2 * N] and [B] at most
    2147483647): the cells [(i, j)] and [(j, i)] are exchanged exactly when
    [i] and [j] lie in different tiles or the smaller of the two is the
    first index of its tile; every other cell of the matrix keeps its
    value. *)
Theorem Transpose_Block_exact (N N2 B : Z) (m : list Z) :
  1 <= N -> N <= N2 -> N2 * N <= 2147483647 ->
  0 < B -> B <= 2147483647 ->
  N2 * N <= Z.of_nat (length m) ->
  rearranges N N2 (tile_rule B) (Transpose_Block N N2 B) m.
Proof.
  intros _ HN2 _ HB _ Hm. apply emits_rearranges; auto using Transpose_Block_flips.
Qed.

Lemma Transpose_Block_exact_witness :
  (1 <= 10 /\ 10 <= 10 /\ 10 * 10 <= 2147483647 /\ 0 < 4 /\ 4 <= 2147483647 /\
   10 * 10 <= Z.of_nat (length (iota 100))) /\
  rearranges 10 10 (tile_rule 4) (Transpose_Block 10 10 4) (iota 100).
Proof.
  split; [vm_compute; intuition discriminate |].
  apply (Transpose_Block_exact 10 10 4 (iota 100)); vm_compute; intuition discriminate.
Defined.

Lemma tile_rule_small (B a b : Z) :
  1 <= B <= 2 -> a < b -> tile_rule B a b = true.
Proof.
  intros HB Hab. unfold tile_rule, tile_start. apply orb_true_iff.
  assert (B = 1 \/ B = 2) as [-> | ->] by lia.
  - right. rewrite Z.mod_1_r. apply Z.eqb_eq. lia.
  - destruct (Z.eq_dec (a mod 2) 0) as [E | E].
    + right. apply Z.eqb_eq. lia.
    + left. apply Z.leb_le. pose proof (Z.mod_pos_bound a 2 ltac:(lia)). lia.
Qed.

Lemma tile_rule_1_2 (B : Z) : 3 <= B -> tile_rule B 1 2 = false.
Proof.
  intros HB. unfold tile_rule, tile_start. rewrite Z.mod_small by lia.
  apply orb_false_iff. split; [apply Z.leb_gt; lia | reflexivity].
Qed.

(** X10. When the outer tile width is a multiple of the inner one
    ([B2 = B * c], as 1040 = 4 * 260 in the source), and [N2 * N] and [B2]
    are inside a 32-bit [int], the two-level kernel leaves exactly the
    buffer that the block kernel with tile width [B] leaves, and so follows
    the same rule. *)
Theorem Transpose_Block2_as_Block (N N2 B B2 c : Z) (m : list Z) :
  1 <= N -> N <= N2 -> N2 * N <= 2147483647 ->
  0 < B -> 0 < c -> B2 = B * c -> B2 <= 2147483647 ->
  N2 * N <= Z.of_nat (length m) ->
  run (Transpose_Block2 N N2 B B2) m = run (Transpose_Block N N2 B) m /\
  rearranges N N2 (tile_rule B) (Transpose_Block2 N N2 B B2) m.
Proof.
  intros HN HN2 _ HB Hc HB2 _ Hm.
  pose proof (Transpose_Block2_flips N N2 B B2 c HB Hc HB2) as H2.
  split.
  - apply (same_flips_same_run N N2 m HN2 Hm _ _ (tile_rule B) HN H2).
    now apply Transpose_Block_flips.
  - now apply emits_rearranges.
Qed.

Lemma Transpose_Block2_as_Block_witness :
  (1 <= 10 /\ 10 <= 10 /\ 10 * 10 <= 2147483647 /\
   0 < 2 /\ 0 < 3 /\ 6 = 2 * 3 /\ 6 <= 2147483647 /\
   10 * 10 <= Z.of_nat (length (iota 100))) /\
  (run (Transpose_Block2 10 10 2 6) (iota 100) = run (Transpose_Block 10 10 2) (iota 100) /\
   rearranges 10 10 (tile_rule 2) (Transpose_Block2 10 10 2 6) (iota 100)).
Proof.
  split; [vm_compute; intuition discriminate |].
  apply (Transpose_Block2_as_Block 10 10 2 6 3 (iota 100));
    vm_compute; intuition discriminate.
Defined.

(** X11. With tiles of width 1 or 2 both tiled kernels are full transposes,
    for every [N >= 1] and stride [N2 >= N] with [N2 * N] and [B2] inside a
    32-bit [int]: a diagonal tile then has no pair off its first row. *)
Theorem narrow_tiles_transpose (N N2 B B2 c : Z) (m : list Z) :
  1 <= N -> N <= N2 -> N2 * N <= 2147483647 ->
  1 <= B <= 2 -> 0 < c -> B2 = B * c -> B2 <= 2147483647 ->
  N2 * N <= Z.of_nat (length m) ->
  transposes N N2 (Transpose_Block N N2 B) m /\
  transposes N N2 (Transpose_Block2 N N2 B B2) m.
Proof.
  intros _ HN2 _ HB Hc HB2 _ Hm.
  split; apply (rearranges_transposes N N2 m HN2 Hm _ (tile_rule B));
    try (intros a b Ha Hab Hb; now apply tile_rule_small).
  - apply emits_rearranges; auto. apply Transpose_Block_flips. lia.
  - apply emits_rearranges; auto. apply (Transpose_Block2_flips N N2 B B2 c); lia.
Qed.

Lemma narrow_tiles_transpose_witness :
  (1 <= 10 /\ 10 <= 10 /\ 10 * 10 <= 2147483647 /\
   1 <= 2 <= 2 /\ 0 < 3 /\ 6 = 2 * 3 /\ 6 <= 2147483647 /\
   10 * 10 <= Z.of_nat (length (iota 100))) /\
  (transposes 10 10 (Transpose_Block 10 10 2) (iota 100) /\
   transposes 10 10 (Transpose_Block2 10 10 2 6) (iota 100)).
Proof.
  split; [vm_compute; intuition discriminate |].
  apply (narrow_tiles_transpose 10 10 2 6 3 (iota 100));
    vm_compute; intuition discriminate.
Defined.

(** X12. With tiles of width 3 or more (64 and 4 in the source) and [N >= 3],
    neither tiled kernel transposes a matrix whose cells [(1, 2)] and [(2, 1)]
    differ: both cells keep their own value. *)
Theorem wide_tiles_do_not_transpose (N N2 B B2 c : Z) (m : list Z) :
  3 <= N -> N <= N2 -> 3 <= B -> 0 < c -> B2 = B * c ->
  N2 * N <= Z.of_nat (length m) ->
  elem N2 m 1 2 <> elem N2 m 2 1 ->
  ~ transposes N N2 (Transpose_Block N N2 B) m /\
  ~ transposes N N2 (Transpose_Block2 N N2 B B2) m.
Proof.
  intros HN HN2 HB Hc HB2 Hm Hne.
  assert (K : forall k, rearranges N N2 (tile_rule B) k m -> ~ transposes N N2 k m).
  { intros k (m' & E & _ & Hcell) (m'' & E' & _ & Ht).
    rewrite E in E'. injection E' as <-.
    destruct (Ht 1 2 ltac:(lia) ltac:(lia)) as [_ T].
    rewrite (Hcell 1 2) in T by lia. unfold swapped_by in T. simpl in T.
    rewrite tile_rule_1_2 in T by lia. contradiction. }
  split; apply K.
  - apply emits_rearranges; auto. apply Transpose_Block_flips. lia.
  - apply emits_rearranges; auto. apply (Transpose_Block2_flips N N2 B B2 c); lia.
Qed.

Lemma wide_tiles_do_not_transpose_witness :
  (3 <= 3 /\ 3 <= 47 /\ 3 <= 4 /\ 0 < 260 /\ 1040 = 4 * 260 /\
   47 * 3 <= Z.of_nat (length (iota 141)) /\
   elem 47 (iota 141) 1 2 <> elem 47 (iota 141) 2 1) /\
  (~ transposes 3 47 (Transpose_Block 3 47 4) (iota 141) /\
   ~ transposes 3 47 (Transpose_Block2 3 47 4 1040) (iota 141)).
Proof.
  split; [vm_compute; intuition discriminate |].
  apply (wide_tiles_do_not_transpose 3 47 4 1040 260 (iota 141));
    vm_compute; intuition discriminate.
Defined.

(** X13. The recursive kernel is a full transpose for [N <= 4], where it runs
    the base case only, and for [N = 6] and [N = 8], where it splits once into
    equal halves that the base case handles. *)
Theorem transpose_rec_small (N : Z) (m : list Z) :
  1 <= N <= 4 \/ N = 6 \/ N = 8 ->
  N * N <= Z.of_nat (length m) ->
  transposes N N (BM_Transpose_Rec N) m.
Proof.
  intros HN Hm.
  apply (rearranges_transposes N N m ltac:(lia) Hm _ (fun a b => (0 <=? a) && (b <? 0 + N))).
  - intros a b Ha Hab Hb. zb.
  - apply emits_rearranges; [lia | exact Hm |]. unfold BM_Transpose_Rec.
    destruct HN as [HN | HN].
    + apply rec_self_base; lia.
    + apply rec_one_split; [lia | lia | destruct HN as [-> | ->]; reflexivity].
Qed.

Lemma transpose_rec_small_witness :
  ((1 <= 8 <= 4 \/ 8 = 6 \/ 8 = 8) /\ 8 * 8 <= Z.of_nat (length (iota 64))) /\
  transposes 8 8 (BM_Transpose_Rec 8) (iota 64).
Proof.
  split; [split; [lia | vm_compute; intuition discriminate] |].
  apply (transpose_rec_small 8 (iota 64)); [lia | vm_compute; intuition discriminate].
Defined.

(** ** The argument sweep *)

Lemma CustomArguments_step (i : Z) : 11 <= i -> i < i * 12 ÷ 11.
Proof.
  intros H. pose proof (Z.quot_rem' (i * 12) 11).
  pose proof (Z.rem_bound_pos (i * 12) 11). lia.
Qed.

Lemma CustomArguments_stall (i : Z) : 0 <= i <= 10 -> i * 12 ÷ 11 = i.
Proof.
  intros H. pose proof (Z.quot_rem' (i * 12) 11).
  pose proof (Z.rem_bound_pos (i * 12) 11). lia.
Qed.

(** The sweep loop over [Z]: from a start value of at least 11 it ends within
    [max + 1 - start] iterations, with a strictly increasing list between
    [start] and [max]. *)
Lemma CustomArguments_loop_arith (fuel : nat) (start max : Z) :
  11 <= start -> (Z.to_nat (max + 1 - start) <= fuel)%nat ->
  exists l, CustomArguments_loop fuel start max = Some l /\
    Forall (fun N => start <= N <= max) l /\
    StronglySorted Z.lt l /\
    (start <= max -> hd_error l = Some start).
Proof.
  revert start. induction fuel as [| fuel IH]; intros start Hs Hf; simpl;
    destruct (Z.leb_spec start max) as [Hle | Hgt].
  - lia.
  - exists []. repeat split; [constructor | constructor | lia].
  - pose proof (CustomArguments_step start Hs) as Hstep.
    destruct (IH (start * 12 ÷ 11)) as (l & E & Hb & Hsort & _); [lia | lia |].
    rewrite E. exists (start :: l). simpl. split; [reflexivity |].
    split; [| split; [| reflexivity]].
    + constructor; [lia |]. eapply Forall_impl; [exact Hb |]. simpl. intros; lia.
    + constructor; [exact Hsort |]. eapply Forall_impl; [exact Hb |]. simpl. intros; lia.
  - exists []. repeat split; [constructor | constructor | lia].
Qed.

(** X14. From a start value of at least 11, and with a bound [max] for which
    the product [i * 12] fits a 32-bit [int] ([max <= 178956970]), the
    sweep loop ends, within [max + 1 - start] iterations, and the arguments
    it registers are strictly increasing, lie between [start] and [max],
    and begin with [start]. *)
Theorem CustomArguments_loop_sweeps (fuel : nat) (start max : Z) :
  11 <= start -> max <= 178956970 ->
  (Z.to_nat (max + 1 - start) <= fuel)%nat ->
  exists l, CustomArguments_loop fuel start max = Some l /\
    Forall (fun N => start <= N <= max) l /\
    StronglySorted Z.lt l /\
    (start <= max -> hd_error l = Some start).
Proof.
  intros Hs _ Hf. now apply CustomArguments_loop_arith.
Qed.

Lemma CustomArguments_loop_sweeps_witness :
  (11 <= START /\ MAX <= 178956970 /\
   (Z.to_nat (MAX + 1 - START) <= Z.to_nat MAX)%nat) /\
  (exists l, CustomArguments_loop (Z.to_nat MAX) START MAX = Some l /\
     Forall (fun N => START <= N <= MAX) l /\
     StronglySorted Z.lt l /\
     (START <= MAX -> hd_error l = Some START)).
Proof.
  split; [unfold START, MAX; lia |].
  apply (CustomArguments_loop_sweeps (Z.to_nat MAX) START MAX); unfold START, MAX; lia.
Defined.

(** X15. From a start value between 0 and 10 the step [(i*12)/11] gives [i]
    back: the loop never ends, whatever the number of iterations it is
    granted. *)
Theorem CustomArguments_loop_hangs (fuel : nat) (start max : Z) :
  0 <= start <= 10 -> start <= max ->
  CustomArguments_loop fuel start max = None.
Proof.
  intros Hs Hm. induction fuel as [| fuel IH]; simpl;
    destruct (Z.leb_spec start max); try lia; [reflexivity |].
  rewrite CustomArguments_stall by lia. now rewrite IH.
Qed.

Lemma CustomArguments_loop_hangs_witness :
  (0 <= 10 <= 10 /\ 10 <= 26000) /\ CustomArguments_loop 1000 10 26000 = None.
Proof.
  split; [lia |]. apply (CustomArguments_loop_hangs 1000 10 26000); lia.
Defined.

Lemma timed_safe_int (N N2 : Z) (c : cmd) (iters : nat) :
  1 <= N -> N <= N2 -> N2 * N <= 2147483647 ->
  emits N2 c (Forall (in_range N)) ->
  exists s', timed iters c (boot (vi_ones (N2 * N))) = Done s' /\
    Forall (fun x => 0 <= x <= 2147483647) (log s').
Proof.
  intros HN HN2 Hsz Hc.
  assert (Hs : safe (timed iters c) (vi_ones (N2 * N))).
  { apply (emits_safe N N2); auto using in_range_timed.
    rewrite vi_ones_length; nia. }
  destruct Hs as (s' & E & Hlog). exists s'. split; [exact E |].
  rewrite vi_ones_length in Hlog by nia.
  eapply Forall_impl; [exact Hlog |]. simpl. intros; lia.
Qed.

(** X16. The sweep that the source registers for the four benchmarks starts at
    1000 and stays within [1000, 26000]; for each of its arguments the buffer
    size [pad N * N] fits a 32-bit [int], every benchmark runs to completion
    for any number of timed iterations, and every index it computes fits a
    32-bit [int]: the runs the program makes are inside the range where [Z]
    and [int] agree. *)
Theorem registered_benchmarks_fit_int :
  exists args, CustomArguments = Some args /\
    hd_error args = Some 1000 /\
    forall N iters, In N args ->
      1000 <= N <= 26000 /\
      pad N * N <= 2147483647 /\
      (exists s', BM_Transpose_Row_state N iters = Done s' /\
         Forall (fun x => 0 <= x <= 2147483647) (log s')) /\
      (exists s', BM_Transpose_Block_state N iters = Done s' /\
         Forall (fun x => 0 <= x <= 2147483647) (log s')) /\
      (exists s', BM_Transpose_Block2_state N iters = Done s' /\
         Forall (fun x => 0 <= x <= 2147483647) (log s')) /\
      (exists s', BM_Transpose_Rec_state N iters = Done s' /\
         Forall (fun x => 0 <= x <= 2147483647) (log s')).
Proof.
  destruct (CustomArguments_loop_arith (Z.to_nat MAX) START MAX)
    as (args & E & Hb & _ & Hhd); [unfold START; lia | unfold START, MAX; lia |].
  exists args. split; [exact E |]. split; [apply Hhd; unfold START, MAX; lia |].
  intros N iters Hin. rewrite List.Forall_forall in Hb.
  pose proof (Hb N Hin) as HN. unfold START, MAX in HN.
  destruct (pad_with_arith 47 N ltac:(lia)) as (Hp & _ & _).
  change (pad_with 47 N) with (pad N) in Hp.
  assert (Hsz : pad N * N <= 2147483647) by nia.
  split; [exact HN |]. split; [exact Hsz |].
  split; [| split; [| split]].
  - apply (timed_safe_int N (pad N)); try lia. apply Transpose_Row_in_range.
  - apply (timed_safe_int N (pad N)); try lia. apply Transpose_Block_in_range. lia.
  - apply (timed_safe_int N (pad N)); try lia. apply Transpose_Block2_in_range; lia.
  - apply (timed_safe_int N N); try nia. apply transpose_rec_in_range; lia.
Qed.

(** X17. The base case of [transpose_rec] ([1 <= n <= 4]) does what the
    comment in the source says, for every [N] with [N * N] inside a 32-bit
    [int] and corners whose sums with [n] fit a 32-bit [int].  Called on the
    diagonal block at any [d >= 0] (the top-level block at 0 included) it
    transposes that block, clamped to the matrix; called on a block at rows
    [i0], columns [j0] that lies below the diagonal, with the mirror image
    as second corner, it exchanges every cell of the block with its mirror
    cell.  All other cells keep their value. *)
Theorem transpose_rec_base_contract (N n d i0 j0 : Z) (m : list Z) :
  1 <= N -> N * N <= 2147483647 -> 1 <= n <= 4 ->
  0 <= d -> d + n <= 2147483647 ->
  0 <= j0 -> j0 + n <= i0 -> i0 + n <= 2147483647 ->
  N * N <= Z.of_nat (length m) ->
  rearranges N N (fun a b => (d <=? a) && (b <? d + n))
    (transpose_rec N n d d d d) m /\
  rearranges N N
    (fun a b => (j0 <=? a) && (a <? j0 + n) && (i0 <=? b) && (b <? i0 + n))
    (transpose_rec N n i0 j0 j0 i0) m.
Proof.
  intros _ _ Hn Hd _ Hj0 Hi0 _ Hm. split.
  - apply emits_rearranges; [lia | exact Hm |]. apply rec_self_base; lia.
  - apply emits_rearranges; [lia | exact Hm |]. apply rec_cross_base; lia.
Qed.

Lemma transpose_rec_base_contract_witness :
  (1 <= 8 /\ 8 * 8 <= 2147483647 /\ 1 <= 4 <= 4 /\
   0 <= 0 /\ 0 + 4 <= 2147483647 /\
   0 <= 0 /\ 0 + 4 <= 4 /\ 4 + 4 <= 2147483647 /\
   8 * 8 <= Z.of_nat (length (iota 64))) /\
  (rearranges 8 8 (fun a b => (0 <=? a) && (b <? 0 + 4))
     (transpose_rec 8 4 0 0 0 0) (iota 64) /\
   rearranges 8 8
     (fun a b => (0 <=? a) && (a <? 0 + 4) && (4 <=? b) && (b <? 4 + 4))
     (transpose_rec 8 4 4 0 0 4) (iota 64)).
Proof.
  split; [vm_compute; intuition discriminate |].
  apply (transpose_rec_base_contract 8 4 0 4 0 (iota 64));
    vm_compute; intuition discriminate.
Defined.

(** X18. Every call [transpose_rec(N, n, m, i0, j0, j0, i0)] with
    non-negative corners, whatever the size [n] (larger than the matrix,
    zero or negative included), stays inside an [N * N] buffer, only
    rearranges it, and undoes itself when run twice: the clamps [i < N],
    [j < N], [ii < N], [jj < N] keep every access inside the matrix.  The
    subscripts and the corner sums are required to fit a 32-bit [int]:
    [N * N], [i0 + n] and [j0 + n] are at most 2147483647, and [n], [i0],
    [j0] are [int]s. *)
Theorem transpose_rec_any_call (N n i0 j0 : Z) (m : list Z) :
  1 <= N -> N * N <= 2147483647 ->
  -2147483648 <= n <= 2147483647 ->
  0 <= i0 <= 2147483647 -> 0 <= j0 <= 2147483647 ->
  i0 + n <= 2147483647 -> j0 + n <= 2147483647 ->
  N * N <= Z.of_nat (length m) ->
  safe (transpose_rec N n i0 j0 j0 i0) m /\
  permutes (transpose_rec N n i0 j0 j0 i0) m /\
  involutive (transpose_rec N n i0 j0 j0 i0) m.
Proof.
  intros HN _ _ Hi0 Hj0 _ _ Hm.
  pose proof (transpose_rec_in_range N n i0 j0 ltac:(lia) ltac:(lia)) as Hc.
  split; [| split].
  - apply (emits_safe N N); auto; lia.
  - apply (emits_permutes N N); auto; lia.
  - apply (emits_involutive N N); auto; lia.
Qed.

Lemma transpose_rec_any_call_witness :
  (1 <= 8 /\ 8 * 8 <= 2147483647 /\ -2147483648 <= 100 <= 2147483647 /\
   0 <= 2 <= 2147483647 /\ 0 <= 1 <= 2147483647 /\
   2 + 100 <= 2147483647 /\ 1 + 100 <= 2147483647 /\
   8 * 8 <= Z.of_nat (length (iota 64))) /\
  (safe (transpose_rec 8 100 2 1 1 2) (iota 64) /\
   permutes (transpose_rec 8 100 2 1 1 2) (iota 64) /\
   involutive (transpose_rec 8 100 2 1 1 2) (iota 64)).
Proof.
  split; [vm_compute; intuition discriminate |].
  apply (transpose_rec_any_call 8 100 2 1 (iota 64)); vm_compute; intuition discriminate.
Defined.
